(** * brainbox / tree-note: the outline editing model and its markdown transcoder

    A shallow embedding of
    - [src/web/packages/tree-note/src/tree-note.ts]
      ([toMarkdown], [nodeToText], [fromMarkdown], [parseTextWithMarks]) and
    - [src/web/packages/tree-note/src/extensions/OutlineNode.ts]
      (the [Enter] and [Backspace] key handlers, the [indent] and [unindent]
      commands),
    together with the part of the JavaScript string and regular-expression
    semantics and of the ProseMirror transaction semantics these functions
    rely on; and of
    - the [level] attribute of [OutlineNode.ts] ([addAttributes]),
    - [src/spike/src/note-item.ts] (the [keydown] handler of
      [setupKeyboardHandlers]) and
    - [src/unnamed/part_001] ([buildNoteTree] of the notes application). *)

From Stdlib Require Import String Ascii.
From Stdlib Require Import List ZArith NArith Lia Bool Arith.
From Stdlib Require Import Permutation Sorted.
Import ListNotations.

Set Implicit Arguments.

(* ================================================================== *)
(** * JavaScript strings *)
(* ================================================================== *)

(** A JavaScript string is a sequence of UTF-16 code units. *)
Module JS.

Definition char := N.
Definition jsstring := list char.

(** String literals of the source, written as Rocq strings (code units
    below 256). *)
Definition lit (s : string) : jsstring :=
  map N_of_ascii (list_ascii_of_string s).

Definition LF : char := 10%N.
Definition SPACE : char := 32%N.
Definition DASH : char := 45%N.
Definition STAR : char := 42%N.
Definition BACKTICK : char := 96%N.

(** ECMAScript LineTerminator: LF, CR, LS, PS. *)
Definition is_line_terminator (c : char) : bool :=
  existsb (N.eqb c) [10; 13; 8232; 8233]%N.

(** The class [\s]: WhiteSpace and LineTerminator code points. *)
Definition is_space (c : char) : bool :=
  existsb (N.eqb c)
    [9; 10; 11; 12; 13; 32; 160; 5760; 8232; 8233; 8239; 8287; 12288; 65279]%N
  || ((8192 <=? c)%N && (c <=? 8202)%N).

(** The class [.] (no [s] flag): everything but a line terminator. *)
Definition is_dot (c : char) : bool := negb (is_line_terminator c).

Definition is_not (x : char) (c : char) : bool := negb (N.eqb c x).

(** [String.prototype.repeat]: a negative count throws a RangeError
    ([None]). *)
Definition repeat (s : jsstring) (count : Z) : option jsstring :=
  if (count <? 0)%Z then None
  else Some (concat (List.repeat s (Z.to_nat count))).

(** [Array.prototype.join] with a one-character separator. *)
Fixpoint join (sep : char) (l : list jsstring) : jsstring :=
  match l with
  | [] => []
  | [x] => x
  | x :: tl => x ++ sep :: join sep tl
  end.

(** [String.prototype.split] with a one-character string separator. *)
Fixpoint split (sep : char) (s : jsstring) : list jsstring :=
  match s with
  | [] => [[]]
  | c :: tl =>
      if N.eqb c sep then [] :: split sep tl
      else match split sep tl with
           | l :: ls => (c :: l) :: ls
           | [] => [[c]]
           end
  end.

Fixpoint startsWith (s p : jsstring) {struct p} : bool :=
  match p, s with
  | [], _ => true
  | _ :: _, [] => false
  | x :: p', y :: s' => N.eqb x y && startsWith s' p'
  end.

Definition endsWith (s p : jsstring) : bool :=
  startsWith (rev s) (rev p).

(** Relative index of [String.prototype.slice]. *)
Definition rel_index (len i : Z) : Z :=
  if (i <? 0)%Z then Z.max (len + i) 0 else Z.min i len.

Definition slice (s : jsstring) (a b : Z) : jsstring :=
  let len := Z.of_nat (length s) in
  let from := rel_index len a in
  let to := rel_index len b in
  firstn (Z.to_nat (to - from)) (skipn (Z.to_nat from) s).

End JS.

(* ================================================================== *)
(** * Regular expressions: the backtracking matcher *)
(* ================================================================== *)

(** The fragment of ECMAScript patterns the source uses.  Quantifiers are
    greedy and range over one-character atoms, which is all the two patterns
    of [tree-note.ts] need.  The matcher follows the continuation-passing
    semantics of ECMA-262 (section "Pattern Semantics"): a matcher takes a
    state and a continuation, and backtracks by trying its alternatives in
    order until the continuation succeeds. *)
Module Regex.
Import JS.

Inductive regex : Type :=
| REmpty
| RChar (c : char)
| RClass (p : char -> bool)
| RStar (p : char -> bool)
| RPlus (p : char -> bool)
| RSeq (a b : regex)
| RAlt (a b : regex)
| RGroup (i : nat) (a : regex)
| RBol
| REol.

(** Matcher state: the index of the next code unit, the input from there on
    and the captures made so far (latest first). *)
Record mstate : Type := MState {
  pos : nat;
  rest : jsstring;
  caps : list (nat * jsstring)
}.

Fixpoint cap_lookup (i : nat) (cs : list (nat * jsstring)) : option jsstring :=
  match cs with
  | [] => None
  | (j, s) :: tl => if Nat.eqb i j then Some s else cap_lookup i tl
  end.

Definition set_cap (i : nat) (st st' : mstate) : mstate :=
  MState (pos st') (rest st')
         ((i, firstn (pos st' - pos st) (rest st)) :: caps st').

(** Greedy repetition of a one-character class: take one more character if
    possible, and fall back to the continuation here if the rest fails. *)
Fixpoint star (p : char -> bool) (i : nat) (s : jsstring)
         (cs : list (nat * jsstring)) (k : mstate -> option mstate)
  : option mstate :=
  match s with
  | c :: tl =>
      if p c then
        match star p (S i) tl cs k with
        | Some r => Some r
        | None => k (MState i s cs)
        end
      else k (MState i s cs)
  | [] => k (MState i s cs)
  end.

Fixpoint m (r : regex) (st : mstate) (k : mstate -> option mstate)
  : option mstate :=
  match r with
  | REmpty => k st
  | RChar c =>
      match rest st with
      | x :: tl => if N.eqb x c then k (MState (S (pos st)) tl (caps st))
                   else None
      | [] => None
      end
  | RClass p =>
      match rest st with
      | x :: tl => if p x then k (MState (S (pos st)) tl (caps st)) else None
      | [] => None
      end
  | RStar p => star p (pos st) (rest st) (caps st) k
  | RPlus p =>
      match rest st with
      | x :: tl => if p x then star p (S (pos st)) tl (caps st) k else None
      | [] => None
      end
  | RSeq a b => m a st (fun st' => m b st' k)
  | RAlt a b =>
      match m a st k with
      | Some r => Some r
      | None => m b st k
      end
  | RGroup i a => m a st (fun st' => k (set_cap i st st'))
  | RBol => if Nat.eqb (pos st) 0 then k st else None
  | REol => match rest st with [] => k st | _ :: _ => None end
  end.

(** One match attempt at index [i], the input from [i] on being [s]. *)
Definition run (r : regex) (i : nat) (s : jsstring) : option mstate :=
  m r (MState i s []) Some.

(** [RegExp.prototype.exec] without the [g] and [y] flags: the first index,
    from 0 on, at which an attempt succeeds. *)
Fixpoint exec_from (r : regex) (i : nat) (s : jsstring) : option mstate :=
  match run r i s with
  | Some st => Some st
  | None =>
      match s with
      | [] => None
      | _ :: tl => exec_from r (S i) tl
      end
  end.

Definition exec (r : regex) (s : jsstring) : option mstate := exec_from r 0 s.

(** Capture [i] of a match; [None] is [undefined]. *)
Definition group (st : mstate) (i : nat) : option jsstring :=
  cap_lookup i (caps st).

(** [String.prototype.split] with a regular expression separator having
    [ng] capture groups (ECMA-262, RegExp.prototype[@@split], non-empty
    input): [q] is the scan index, [piece] the text between the end [p] of
    the previous separator and [q], and [s] the input from [q] on.  A failed
    attempt, or an empty match at [p], advances [q] by one; a match pushes
    the piece and the captures and resumes after the match. *)
Fixpoint split_loop (fuel : nat) (r : regex) (ng : nat) (q : nat)
         (piece s : jsstring) : list (option jsstring) :=
  match fuel with
  | O => [Some (piece ++ s)]
  | S fuel' =>
      match s with
      | [] => [Some piece]
      | c :: tl =>
          match run r q s with
          | None => split_loop fuel' r ng (S q) (piece ++ [c]) tl
          | Some st =>
              if Nat.eqb (pos st) (q - length piece)
              then split_loop fuel' r ng (S q) (piece ++ [c]) tl
              else Some piece
                     :: map (group st) (seq 1 ng)
                     ++ split_loop fuel' r ng (pos st) [] (rest st)
          end
      end
  end.

(** Every iteration either consumes a code unit or, after a match, starts a
    fresh piece, so twice the length (and one) bounds the iterations: the
    loop ends on the empty input before the fuel is spent, and any larger
    fuel gives the same segments (lemma [split_re_fuel] below). *)
Definition split_re (r : regex) (ng : nat) (s : jsstring)
  : list (option jsstring) :=
  split_loop (2 * length s + 1) r ng 0 [] s.

End Regex.

(* ================================================================== *)
(** * The data model *)
(* ================================================================== *)

Import JS.

(** A mark of a text run: [{type: 'bold'}], [{type: 'italic'}],
    [{type: 'code'}], [{type: 'link', attrs: {href}}], or a mark of another
    type (StarterKit also has [strike]). *)
Inductive Mark : Type :=
| Bold
| Italic
| Code
| Link (href : jsstring)
| OtherMark (name : jsstring).

(** An inline child of an outline node: a text run [{type: 'text', text,
    marks}], or an inline node of another type (StarterKit's [hardBreak] is
    left enabled by [initEditor]).  A run without marks has no [marks] field
    in the editor's JSON, which is [marks = []] here. *)
Inductive Inline : Type :=
| Text (text : jsstring) (marks : list Mark)
| HardBreak.

(** An outline node [{type: 'outlineNode', attrs: {level}, content}].
    [initEditor] switches every other block node of StarterKit off, so the
    children of the document are outline nodes and the document is their
    list.  The level is an integer; the code keeps it a number but nothing in
    the types bounds it. *)
Record OutlineNode : Type := Node {
  level : Z;
  content : list Inline
}.

Definition Doc := list OutlineNode.

(** [attrs.level || 0] *)
Definition levelOr0 (l : Z) : Z := if (l =? 0)%Z then 0%Z else l.

(* ================================================================== *)
(** * The markdown transcoder (tree-note.ts) *)
(* ================================================================== *)

Module Transcoder.
Import Regex.

(** The body of the loop over [child.marks] in [nodeToText]. *)
Definition wrapMark (t : jsstring) (mark : Mark) : jsstring :=
  match mark with
  | Bold => lit "**" ++ t ++ lit "**"
  | Italic => lit "*" ++ t ++ lit "*"
  | Code => lit "`" ++ t ++ lit "`"
  | Link _ | OtherMark _ => t
  end.

(** One child in [nodeToText]: only text children contribute. *)
Definition childToText (child : Inline) : jsstring :=
  match child with
  | Text t marks => fold_left wrapMark marks t
  | HardBreak => []
  end.

Definition nodeToText (node : OutlineNode) : jsstring :=
  fold_left (fun text child => text ++ childToText child) (content node) [].

(** The line pushed for one node; [None] when [repeat] throws. *)
Definition nodeLine (node : OutlineNode) : option jsstring :=
  match JS.repeat (lit "  ") (levelOr0 (level node)) with
  | Some indent => Some (indent ++ lit "- " ++ nodeToText node)
  | None => None
  end.

Fixpoint nodeLines (nodes : Doc) : option (list jsstring) :=
  match nodes with
  | [] => Some []
  | node :: tl =>
      match nodeLine node with
      | None => None
      | Some l =>
          match nodeLines tl with
          | None => None
          | Some ls => Some (l :: ls)
          end
      end
  end.

Definition toMarkdown (json : Doc) : option jsstring :=
  match nodeLines json with
  | Some lines => Some (join LF lines)
  | None => None
  end.

(** The bullet pattern of [fromMarkdown]: start of input, group 1 =
    whitespace (any number), a dash, whitespace (one or more), group 2 = any
    characters but line terminators, end of input. *)
Definition bullet_re : regex :=
  RSeq RBol
    (RSeq (RGroup 1 (RStar is_space))
       (RSeq (RChar DASH)
          (RSeq (RPlus is_space)
             (RSeq (RGroup 2 (RStar is_dot)) REol)))).

(** The separator pattern of [parseTextWithMarks], one group around three
    alternatives in this order: two stars, one or more non-stars, two stars;
    one star, one or more non-stars, one star; a backtick, one or more
    non-backticks, a backtick. *)
Definition span_re : regex :=
  RGroup 1
    (RAlt (RSeq (RChar STAR) (RSeq (RChar STAR)
             (RSeq (RPlus (is_not STAR)) (RSeq (RChar STAR) (RChar STAR)))))
       (RAlt (RSeq (RChar STAR) (RSeq (RPlus (is_not STAR)) (RChar STAR)))
             (RSeq (RChar BACKTICK)
                (RSeq (RPlus (is_not BACKTICK)) (RChar BACKTICK))))).

(** The body of the loop over [segments] in [parseTextWithMarks]; a segment
    that is [undefined] or empty is skipped. *)
Definition segmentToInline (segment : option jsstring) : list Inline :=
  match segment with
  | None | Some [] => []
  | Some seg =>
      if startsWith seg (lit "**") && endsWith seg (lit "**")
      then [Text (slice seg 2 (-2)) [Bold]]
      else if startsWith seg (lit "*") && endsWith seg (lit "*")
      then [Text (slice seg 1 (-1)) [Italic]]
      else if startsWith seg (lit "`") && endsWith seg (lit "`")
      then [Text (slice seg 1 (-1)) [Code]]
      else [Text seg []]
  end.

Definition parseTextWithMarks (text : jsstring) : list Inline :=
  match text with
  | [] => []
  | _ :: _ => flat_map segmentToInline (split_re span_re 1 text)
  end.

(** A capture that took part in the match; both groups of [bullet_re] always
    do (lemma [bullet_groups_defined] below). *)
Definition captured (st : mstate) (i : nat) : jsstring :=
  match group st i with
  | Some s => s
  | None => []
  end.

(** The body of the loop over [lines] in [fromMarkdown]: the node pushed for
    a line, if any. *)
Definition lineToNode (line : jsstring) : option OutlineNode :=
  match exec bullet_re line with
  | Some mt =>
      let indent := captured mt 1 in
      let text := captured mt 2 in
      let level := Z.of_nat (length indent / 2) in
      Some (Node level (parseTextWithMarks text))
  | None => None
  end.

Fixpoint collectNodes (lines : list jsstring) : Doc :=
  match lines with
  | [] => []
  | line :: tl =>
      match lineToNode line with
      | Some node => node :: collectNodes tl
      | None => collectNodes tl
      end
  end.

Definition fromMarkdown (markdown : jsstring) : Doc :=
  let content := collectNodes (JS.split LF markdown) in
  match content with
  | _ :: _ => content
  | [] => [Node 0 []]
  end.

End Transcoder.

(* ================================================================== *)
(** * The structural commands (extensions/OutlineNode.ts) *)
(* ================================================================== *)

(** The editing state is ProseMirror's: a document and a selection given by
    two positions.  Positions count tokens: entering or leaving an outline
    node is one token, a code unit of text is one, an inline leaf is one. *)
Module Editor.

Definition inlineSize (c : Inline) : nat :=
  match c with
  | Text t _ => length t
  | HardBreak => 1
  end.

Fixpoint contentSize (cs : list Inline) : nat :=
  match cs with
  | [] => 0
  | c :: tl => inlineSize c + contentSize tl
  end.

Definition nodeSize (n : OutlineNode) : nat := contentSize (content n) + 2.

Fixpoint docSize (d : Doc) : nat :=
  match d with
  | [] => 0
  | n :: tl => nodeSize n + docSize tl
  end.

(** [doc.resolve(pos)]: either inside outline node number [index], which
    starts at position [before], at offset [parentOffset] of its content
    (depth 1, the parent is the outline node), or between two nodes (depth
    0, the parent is the document). *)
Inductive ResolvedPos : Type :=
| InNode (index before : nat) (parent : OutlineNode) (parentOffset : nat)
| AtTop.

Fixpoint resolve_from (nodes : Doc) (start index pos : nat) : ResolvedPos :=
  match nodes with
  | [] => AtTop
  | n :: tl =>
      if pos <=? start then AtTop
      else if pos <? start + nodeSize n
           then InNode index start n (pos - start - 1)
           else resolve_from tl (start + nodeSize n) (S index) pos
  end.

Definition resolve (d : Doc) (pos : nat) : ResolvedPos := resolve_from d 0 0 pos.

(** Position of the node number [i]. *)
Fixpoint posOf (d : Doc) (i : nat) : nat :=
  match i, d with
  | S i', n :: tl => nodeSize n + posOf tl i'
  | _, _ => 0
  end.

(** [doc.nodeAt(pos)] for a position at which a child of the document
    starts: the number of that child. *)
Fixpoint indexAt_from (nodes : Doc) (start index pos : nat) : option nat :=
  match nodes with
  | [] => None
  | n :: tl =>
      if pos =? start then Some index
      else indexAt_from tl (start + nodeSize n) (S index) pos
  end.

Definition indexAt (d : Doc) (pos : nat) : option nat := indexAt_from d 0 0 pos.

(** [Fragment.cut]: the content before and after an offset; a text run the
    offset falls into is cut in two runs with the same marks (an inline leaf
    has size 1, so no offset falls into one). *)
Fixpoint cut (cs : list Inline) (off : nat) : list Inline * list Inline :=
  match cs with
  | [] => ([], [])
  | c :: tl =>
      if off =? 0 then ([], cs)
      else if inlineSize c <=? off then
        let (b, a) := cut tl (off - inlineSize c) in (c :: b, a)
      else
        match c with
        | Text t ms => ([Text (firstn off t) ms], Text (skipn off t) ms :: tl)
        | HardBreak => ([], cs)
        end
  end.

(** The document and the two ends of the selection, as positions; the
    handlers read the selection through [from], [to] and [empty] only. *)
Record EditorState : Type := State {
  doc : Doc;
  anchor : nat;
  head : nat
}.

(** [selection.from], [selection.to], [selection.empty]. *)
Definition sel_from (st : EditorState) : nat := Nat.min (anchor st) (head st).
Definition sel_to (st : EditorState) : nat := Nat.max (anchor st) (head st).
Definition sel_empty (st : EditorState) : bool := anchor st =? head st.

(** The events dispatched on the editor's DOM node. *)
Inductive Event : Type :=
| NodeCreated (position : nat)
| NodeIndented (position : nat) (level : Z)
| NodeUnindented (position : nat) (level : Z).

(** [$pos.before()]: throws at depth 0. *)
Definition before (r : ResolvedPos) : option nat :=
  match r with
  | InNode _ b _ _ => Some b
  | AtTop => None
  end.

Definition setLevel (d : Doc) (i : nat) (l : Z) : Doc :=
  match nth_error d i with
  | Some n => firstn i d ++ Node l (content n) :: skipn (S i) d
  | None => d
  end.

(** [tr.setNodeMarkup(pos, null, {level})]: the node starting at [pos] gets
    the attributes [{level}] and keeps its content; positions do not move.
    Throws when no node starts at [pos]. *)
Definition tr_setNodeMarkup (tr : EditorState) (pos : nat) (l : Z)
  : option EditorState :=
  match indexAt (doc tr) pos with
  | Some i => Some (State (setLevel (doc tr) i l) (anchor tr) (head tr))
  | None => None
  end.

(** Mapping a position through an insertion of [n] tokens at [pos], with
    the default association to the right. *)
Definition mapInsert (pos n x : nat) : nat := if x <? pos then x else x + n.

(** [tr.split(pos)] (depth 1): the outline node around [pos] is cut at
    [pos] in two nodes with its attributes; the selection is mapped through
    the step.  Throws when [pos] is not inside an outline node. *)
Definition tr_split (tr : EditorState) (pos : nat) : option EditorState :=
  match resolve (doc tr) pos with
  | InNode i _ n off =>
      let (b, a) := cut (content n) off in
      Some (State (firstn i (doc tr)
                     ++ Node (level n) b :: Node (level n) a
                     :: skipn (S i) (doc tr))
                  (mapInsert pos 2 (anchor tr))
                  (mapInsert pos 2 (head tr)))
  | AtTop => None
  end.

(** Modelled from the spec: the content expression of [OutlineDocument]
    ([extensions/OutlineDocument.ts], imported by [tree-note.ts], is not
    among the sources).  The spec has an OutlineDocument be "an ordered
    sequence of OutlineNode, always containing at least one node", that is
    a content expression asking for one outline node or more. *)
Definition docMinNodes : nat := 1.

(** The node ProseMirror makes up to complete a content expression:
    [outlineNode.createAndFill()], the default level and no content. *)
Definition defaultNode : OutlineNode := Node 0 [].

Definition removeAt (d : Doc) (i : nat) : Doc := firstn i d ++ skipn (S i) d.

(** [tr.delete($from.before(), $from.after())] for a cursor at [cursor] in
    the node number [i] starting at [b]: the node is removed; if that leaves
    the document short of its content expression, the replace step is
    completed with a default node.  The cursor, mapped onto the place of the
    removed node, is put by [Selection.near] at the start of the node now
    there, or else at the end of the node before it. *)
Definition tr_deleteNode (tr : EditorState) (i b : nat) : EditorState :=
  let d := removeAt (doc tr) i in
  if length d <? docMinNodes then State [defaultNode] 1 1
  else if i <? length d then State d (b + 1) (b + 1)
  else State d (b - 1) (b - 1).

Definition Outcome : Type := option (bool * EditorState * list Event).

(** The [Enter] key handler. *)
Definition Enter (state : EditorState) : Outcome :=
  match resolve (doc state) (sel_from state) with
  | AtTop => Some (false, state, [])
  | InNode _ _ parent _ =>
      let currentLevel := levelOr0 (level parent) in
      match tr_split state (sel_to state) with
      | None => None
      | Some transaction =>
          match before (resolve (doc transaction) (sel_from transaction)) with
          | None => None
          | Some newNodePos =>
              match tr_setNodeMarkup transaction newNodePos currentLevel with
              | None => None
              | Some transaction' =>
                  Some (true, transaction', [NodeCreated newNodePos])
              end
          end
      end
  end.

(** The [Backspace] key handler. *)
Definition Backspace (state : EditorState) : Outcome :=
  if negb (sel_empty state) then Some (false, state, [])
  else
    match resolve (doc state) (sel_from state) with
    | AtTop => Some (false, state, [])
    | InNode i b parent parentOffset =>
        if negb (parentOffset =? 0) then Some (false, state, [])
        else if contentSize (content parent) =? 0
        then Some (true, tr_deleteNode state i b, [])
        else Some (false, state, [])
    end.

(** The [indent] command; [dispatch] tells whether the command is run (as
    by the [Tab] handler) or only tried. *)
Definition indent (dispatch : bool) (state : EditorState) : Outcome :=
  match resolve (doc state) (sel_from state) with
  | AtTop => Some (false, state, [])
  | InNode _ b parent _ =>
      let currentLevel := levelOr0 (level parent) in
      let newLevel := Z.min (currentLevel + 1) 10 in
      match tr_setNodeMarkup state b newLevel with
      | None => None
      | Some transaction =>
          if dispatch
          then Some (true, transaction, [NodeIndented b newLevel])
          else Some (true, state, [])
      end
  end.

(** The [unindent] command. *)
Definition unindent (dispatch : bool) (state : EditorState) : Outcome :=
  match resolve (doc state) (sel_from state) with
  | AtTop => Some (false, state, [])
  | InNode _ b parent _ =>
      let currentLevel := levelOr0 (level parent) in
      if (currentLevel =? 0)%Z then Some (false, state, [])
      else
        let newLevel := Z.max (currentLevel - 1) 0 in
        match tr_setNodeMarkup state b newLevel with
        | None => None
        | Some transaction =>
            if dispatch
            then Some (true, transaction, [NodeUnindented b newLevel])
            else Some (true, state, [])
        end
  end.

(** What a session does to the editor: a key of the keymap, or a move of the
    selection by the host. *)
Inductive Action : Type :=
| PressEnter
| PressTab
| PressShiftTab
| PressBackspace
| Select (anchor head : nat).

Definition act (a : Action) (st : EditorState) : Outcome :=
  match a with
  | PressEnter => Enter st
  | PressTab => indent true st
  | PressShiftTab => unindent true st
  | PressBackspace => Backspace st
  | Select a h => Some (true, State (doc st) a h, [])
  end.

(** A sequence of actions, with the events in the order they fire. *)
Fixpoint session (acts : list Action) (st : EditorState)
  : option (EditorState * list Event) :=
  match acts with
  | [] => Some (st, [])
  | a :: tl =>
      match act a st with
      | None => None
      | Some (_, st', evs) =>
          match session tl st' with
          | None => None
          | Some (st'', evs') => Some (st'', evs ++ evs')
          end
      end
  end.

End Editor.

(* ================================================================== *)
(** * Specification vocabulary *)
(* ================================================================== *)

Module Spec.
Import Regex Transcoder Editor.

(** ** Declarative meaning of a pattern

    [Matches r st st'] : the pattern [r] can take the matcher from [st] to
    [st'], whatever the order in which the alternatives are tried. *)
Inductive Matches : regex -> mstate -> mstate -> Prop :=
| M_Empty st : Matches REmpty st st
| M_Char c i s cs :
    Matches (RChar c) (MState i (c :: s) cs) (MState (S i) s cs)
| M_Class (p : char -> bool) c i s cs :
    p c = true ->
    Matches (RClass p) (MState i (c :: s) cs) (MState (S i) s cs)
| M_StarNil p i s cs : Matches (RStar p) (MState i s cs) (MState i s cs)
| M_StarCons (p : char -> bool) c i s cs st' :
    p c = true ->
    Matches (RStar p) (MState (S i) s cs) st' ->
    Matches (RStar p) (MState i (c :: s) cs) st'
| M_Plus (p : char -> bool) c i s cs st' :
    p c = true ->
    Matches (RStar p) (MState (S i) s cs) st' ->
    Matches (RPlus p) (MState i (c :: s) cs) st'
| M_Seq a b st st' st'' :
    Matches a st st' -> Matches b st' st'' -> Matches (RSeq a b) st st''
| M_AltL a b st st' : Matches a st st' -> Matches (RAlt a b) st st'
| M_AltR a b st st' : Matches b st st' -> Matches (RAlt a b) st st'
| M_Group i a st st' :
    Matches a st st' -> Matches (RGroup i a) st (set_cap i st st')
| M_Bol st : pos st = 0 -> Matches RBol st st
| M_Eol st : rest st = [] -> Matches REol st st.

(** A line that matches the bullet pattern: leading whitespace [ws], a dash,
    whitespace [sp] (some), and text [txt] free of line terminators. *)
Definition BulletLine (line ws sp txt : jsstring) : Prop :=
  line = ws ++ DASH :: sp ++ txt
  /\ Forall (fun c => is_space c = true) ws
  /\ sp <> []
  /\ Forall (fun c => is_space c = true) sp
  /\ Forall (fun c => is_dot c = true) txt.

Definition matchesBullet (line : jsstring) : Prop :=
  exists ws sp txt, BulletLine line ws sp txt.

(** What the import makes of a list of lines: a line that matches the
    bullet pattern gives one node, at the level that is half the length of
    its leading whitespace, rounded down; any other line gives nothing. *)
Inductive Imports : list jsstring -> Doc -> Prop :=
| Imports_nil : Imports [] []
| Imports_bullet line ws sp txt n lines nodes :
    BulletLine line ws sp txt ->
    level n = Z.of_nat (length ws / 2) ->
    Imports lines nodes ->
    Imports (line :: lines) (n :: nodes)
| Imports_drop line lines nodes :
    ~ matchesBullet line ->
    Imports lines nodes ->
    Imports (line :: lines) nodes.

(** ** The export, as the specification words it *)

(** Nested wrapping of a run's text, the marks taken in the listed order. *)
Definition renderRun (c : Inline) : jsstring :=
  match c with
  | Text t ms => fold_left wrapMark ms t
  | HardBreak => []
  end.

Definition renderInline (cs : list Inline) : jsstring :=
  concat (map renderRun cs).

(** Two spaces per level, the bullet, the rendered content. *)
Definition exportLine (n : OutlineNode) : jsstring :=
  List.repeat SPACE (2 * Z.to_nat (level n)) ++ lit "- " ++ renderInline (content n).

(** ** Marks the export renders *)

Definition rendered (mk : Mark) : bool :=
  match mk with
  | Bold | Italic | Code => true
  | Link _ | OtherMark _ => false
  end.

Definition eraseUnrendered (c : Inline) : Inline :=
  match c with
  | Text t ms => Text t (filter rendered ms)
  | HardBreak => HardBreak
  end.

Definition eraseNode (n : OutlineNode) : OutlineNode :=
  Node (level n) (map eraseUnrendered (content n)).

(** ** The documents the import reads back as they were exported *)

(** Every run of every node carries one mark at most. *)
Definition atMostOneMark (d : Doc) : Prop :=
  Forall (fun n => Forall (fun c => match c with
                                    | Text _ ms => length ms <= 1
                                    | HardBreak => True
                                    end) (content n)) d.

Definition roundTrips (d : Doc) : Prop :=
  exists markdown, toMarkdown d = Some markdown /\ fromMarkdown markdown = d.

Definition freeOf (bad : char -> bool) (t : jsstring) : bool :=
  forallb (fun c => negb (bad c)) t.

Definition isStar (c : char) : bool := N.eqb c STAR.
Definition isBacktick (c : char) : bool := N.eqb c BACKTICK.

Definition nonEmpty (t : jsstring) : bool :=
  match t with [] => false | _ :: _ => true end.

(** A text run with non-empty text free of line terminators and either
    unmarked and free of stars and backticks, or bold or italic and free of
    stars, or code and free of backticks. *)
Definition runReadsBack (c : Inline) : bool :=
  match c with
  | Text t [] =>
      nonEmpty t && freeOf is_line_terminator t
      && freeOf isStar t && freeOf isBacktick t
  | Text t [Bold] | Text t [Italic] =>
      nonEmpty t && freeOf is_line_terminator t && freeOf isStar t
  | Text t [Code] =>
      nonEmpty t && freeOf is_line_terminator t && freeOf isBacktick t
  | _ => false
  end.

Definition isPlain (c : Inline) : bool :=
  match c with
  | Text _ [] => true
  | _ => false
  end.

Fixpoint noAdjacentPlain (cs : list Inline) : bool :=
  match cs with
  | c1 :: tl =>
      match tl with
      | c2 :: _ => negb (isPlain c1 && isPlain c2)
      | [] => true
      end && noAdjacentPlain tl
  | [] => true
  end.

(** An unmarked first run does not begin with whitespace. *)
Definition startsClean (cs : list Inline) : bool :=
  match cs with
  | Text (c :: _) [] :: _ => negb (is_space c)
  | _ => true
  end.

Definition nodeReadsBack (n : OutlineNode) : bool :=
  (0 <=? level n)%Z && forallb runReadsBack (content n)
  && noAdjacentPlain (content n) && startsClean (content n).

(** The tokens of a content, one per position: a code unit with the marks
    of its run, or an inline leaf. *)
Definition tokens (cs : list Inline) : list (option (char * list Mark)) :=
  flat_map (fun c => match c with
                     | Text t ms => map (fun x => Some (x, ms)) t
                     | HardBreak => [None]
                     end) cs.

(** What the import makes of the text between two separators. *)
Definition pieceInline (piece : jsstring) : list Inline :=
  match piece with
  | [] => []
  | _ :: _ => [Text piece []]
  end.

Definition plainText (t : jsstring) : Prop :=
  Forall (fun c => isStar c = false /\ isBacktick c = false) t.

(** The iterations [split_loop] has left at most, but one. *)
Definition splitMeasure (piece s : jsstring) : nat :=
  2 * length s + match piece with [] => 0 | _ :: _ => 1 end.

(** ** Levels *)

Definition levelInRange (n : OutlineNode) : Prop := (0 <= level n <= 10)%Z.
Definition levelsInRange (d : Doc) : Prop := Forall levelInRange d.

(** Sessions of [indent], [unindent] and [split] calls (and moves of the
    selection). *)
Definition structural (a : Action) : bool :=
  match a with
  | PressBackspace => false
  | _ => true
  end.

End Spec.

(* ================================================================== *)
(** * The level attribute (extensions/OutlineNode.ts, addAttributes) *)
(* ================================================================== *)

Module Attributes.

(** [parseInt(string, 10)] (ECMA-262): leading white space is skipped, one
    sign is read, then the longest run of decimal digits; no digit gives
    NaN ([None]).  The value is kept exact, which is what the code computes
    for numerals of safe integers (up to 2^53 in magnitude); longer numerals
    round to a double. *)
Fixpoint dropSpaces (s : jsstring) : jsstring :=
  match s with
  | c :: tl => if is_space c then dropSpaces tl else s
  | [] => []
  end.

Definition isDigit (c : char) : bool := ((48 <=? c) && (c <=? 57))%N.

Fixpoint digitPrefix (s : jsstring) : jsstring :=
  match s with
  | c :: tl => if isDigit c then c :: digitPrefix tl else []
  | [] => []
  end.

Definition digitsValue (ds : jsstring) : N :=
  fold_left (fun v c => (v * 10 + (c - 48))%N) ds 0%N.

Definition parseInt10 (s : jsstring) : option Z :=
  let S := dropSpaces s in
  let '(sign, S') :=
    match S with
    | c :: tl => if N.eqb c 45 then ((-1)%Z, tl)
                 else if N.eqb c 43 then (1%Z, tl)
                 else (1%Z, S)
    | [] => (1%Z, S)
    end in
  match digitPrefix S' with
  | [] => None
  | ds => Some (sign * Z.of_N (digitsValue ds))%Z
  end.

(** [parseHTML] of the [level] attribute: [element.getAttribute] gives
    [null] ([None]) or a string; [null] and the empty string are falsy. *)
Definition parseHTML (dataLevel : option jsstring) : option Z :=
  match dataLevel with
  | None => Some 0%Z
  | Some [] => Some 0%Z
  | Some level => parseInt10 level
  end.

End Attributes.

(* ================================================================== *)
(** * The keyboard handler of a note item (spike/src/note-item.ts) *)
(* ================================================================== *)

Module NoteItem.

Inductive Key : Type := KeyTab | KeyEnter | KeyOther.

(** The fields of [this.note] the handler reads. *)
Record NoteRecord : Type := NoteRec {
  noteId : jsstring;
  noteParent : jsstring
}.

(** The events the handler dispatches; [None] is [undefined] (no note). *)
Inductive ItemEvent : Type :=
| CreateChild (parentId : option jsstring)
| CreateSibling (afterId parentId : option jsstring).

(** One [keydown]: the closure variable [lastEnterTime] before, the key and
    the value of [Date.now()]; the result is [lastEnterTime] after, the
    events dispatched and whether [preventDefault] was called. *)
Definition keydown (note : option NoteRecord) (lastEnterTime : Z)
           (key : Key) (now : Z) : Z * list ItemEvent * bool :=
  match key with
  | KeyTab => (lastEnterTime, [CreateChild (option_map noteId note)], true)
  | KeyEnter =>
      let timeSinceLastEnter := (now - lastEnterTime)%Z in
      if ((timeSinceLastEnter <? 500) && (timeSinceLastEnter >? 0))%Z
      then (0%Z,
            [CreateSibling (option_map noteId note)
                           (option_map noteParent note)],
            true)
      else (now, [], false)
  | KeyOther => (lastEnterTime, [], false)
  end.

(** A sequence of key presses, each with its time. *)
Fixpoint keydowns (note : option NoteRecord) (lastEnterTime : Z)
         (presses : list (Key * Z)) : Z * list ItemEvent :=
  match presses with
  | [] => (lastEnterTime, [])
  | (key, now) :: tl =>
      let '(last', evs, _) := keydown note lastEnterTime key now in
      let '(last'', evs') := keydowns note last' tl in
      (last'', evs ++ evs')
  end.

End NoteItem.

(* ================================================================== *)
(** * The note tree of the notes application (spike, notes-app) *)
(* ================================================================== *)

Module NotesApp.

Record Note : Type := MkNote {
  id : jsstring;
  parent : jsstring;
  order : Z;
  body : jsstring
}.

Fixpoint str_eqb (a b : jsstring) : bool :=
  match a, b with
  | [], [] => true
  | x :: a', y :: b' => N.eqb x y && str_eqb a' b'
  | _, _ => false
  end.

(** [note.parent || 'root'] *)
Definition parentKey (note : Note) : jsstring :=
  match parent note with
  | [] => lit "root"
  | _ :: _ => parent note
  end.

(** A [Map<string, Note[]>], its entries in insertion order. *)
Definition NoteMap := list (jsstring * list Note).

Fixpoint mapGet (m : NoteMap) (k : jsstring) : option (list Note) :=
  match m with
  | [] => None
  | (k', g) :: tl => if str_eqb k' k then Some g else mapGet tl k
  end.

(** The body of the grouping loop: the key gets an empty array if it has
    none, then the note is pushed on the key's array. *)
Fixpoint mapPush (m : NoteMap) (k : jsstring) (note : Note) : NoteMap :=
  match m with
  | [] => [(k, [note])]
  | (k', g) :: tl =>
      if str_eqb k' k then (k', g ++ [note]) :: tl
      else (k', g) :: mapPush tl k note
  end.

Definition groupNotes (notes : list Note) : NoteMap :=
  fold_left (fun m note => mapPush m (parentKey note) note) notes [].

(** [children.sort((a, b) => a.order - b.order)]: [Array.prototype.sort]
    is stable; the stable sort is written as successive insertions, each
    element going behind the ones that do not come after it. *)
Fixpoint insertByOrder (x : Note) (l : list Note) : list Note :=
  match l with
  | [] => [x]
  | y :: tl =>
      if (order x - order y <? 0)%Z then x :: l
      else y :: insertByOrder x tl
  end.

Definition sortByOrder (l : list Note) : list Note :=
  fold_left (fun acc x => insertByOrder x acc) l [].

Definition buildNoteTree (notes : list Note) : NoteMap :=
  map (fun e => (fst e, sortByOrder (snd e))) (groupNotes notes).

End NotesApp.

(* ================================================================== *)
(** * More specification vocabulary *)
(* ================================================================== *)

Module MoreSpec.
Import Regex Transcoder Editor Spec.

(** A run as the import makes them: unmarked, or with one of the three
    marks the transcoder knows. *)
Definition importedRun (c : Inline) : Prop :=
  match c with
  | Text _ [] | Text _ [Bold] | Text _ [Italic] | Text _ [Code] => True
  | _ => False
  end.

Definition importedNode (n : OutlineNode) : Prop :=
  (0 <= level n)%Z /\ Forall importedRun (content n).

Definition isText (c : Inline) : bool :=
  match c with
  | Text _ _ => true
  | HardBreak => false
  end.

Definition textOnly (n : OutlineNode) : OutlineNode :=
  Node (level n) (filter isText (content n)).

(** Some line of the markdown matches the bullet pattern. *)
Definition hasBullet (markdown : jsstring) : Prop :=
  Exists matchesBullet (JS.split LF markdown).

Definition notDelimiter (c : char) : bool :=
  negb (isStar c) && negb (isBacktick c).

Definition runText (c : Inline) : jsstring :=
  match c with
  | Text t _ => t
  | HardBreak => []
  end.

Definition allDelimiters (p : jsstring) : Prop :=
  Forall (fun c => notDelimiter c = false) p.

(** The text of a segment of the split; [undefined] holds none. *)
Definition segmentText (seg : option jsstring) : jsstring :=
  match seg with
  | Some s => s
  | None => []
  end.

(** The characters of a content that are not stars or backticks. *)
Definition plainChars (cs : list Inline) : jsstring :=
  filter notDelimiter (concat (map runText cs)).

(** The tokens of a document, node after node. *)
Definition docTokens (d : Doc) : list (option (char * list Mark)) :=
  flat_map (fun n => tokens (content n)) d.

Definition isCreated (e : Event) : bool :=
  match e with
  | NodeCreated _ => true
  | _ => false
  end.

(** The decimal numeral of an integer, as [Number::toString] writes it. *)
Fixpoint digitsOf (fuel : nat) (n : N) : jsstring :=
  match fuel with
  | O => []
  | S f => (if (n <? 10)%N then [] else digitsOf f (n / 10)%N)
           ++ [(48 + n mod 10)%N]
  end.

Definition numeralN (n : N) : jsstring := digitsOf (S (N.size_nat n)) n.

Definition numeral (z : Z) : jsstring :=
  if (z <? 0)%Z then 45%N :: numeralN (Z.abs_N z) else numeralN (Z.abs_N z).

(** Presses of Enter each less than 500 ms after the one before. *)
Fixpoint rapid (prev : Z) (times : list Z) : Prop :=
  match times with
  | [] => True
  | t :: tl => (0 < t - prev < 500)%Z /\ rapid t tl
  end.

Definition isSibling (e : NoteItem.ItemEvent) : bool :=
  match e with
  | NoteItem.CreateSibling _ _ => true
  | NoteItem.CreateChild _ => false
  end.

(** The presses of Enter at the given times. *)
Definition enters (times : list Z) : list (NoteItem.Key * Z) :=
  map (fun t => (NoteItem.KeyEnter, t)) times.

Definition isEnter (p : NoteItem.Key * Z) : bool :=
  match fst p with
  | NoteItem.KeyEnter => true
  | _ => false
  end.

(** The notes filed under a key, the notes with a given order, and the
    order of two notes. *)
Definition filedUnder (k : jsstring) (note : NotesApp.Note) : bool :=
  NotesApp.str_eqb (NotesApp.parentKey note) k.

Definition hasOrder (o : Z) (note : NotesApp.Note) : bool :=
  (NotesApp.order note =? o)%Z.

Definition byOrder (a b : NotesApp.Note) : Prop :=
  (NotesApp.order a <= NotesApp.order b)%Z.

(** A numeral may be followed by anything but a digit. *)
Definition noDigitAhead (rest : jsstring) : Prop :=
  match rest with
  | [] => True
  | c :: _ => Attributes.isDigit c = false
  end.

(** What the array of a key holds after more notes are pushed on it. *)
Definition pushed (o : option (list NotesApp.Note)) (l : list NotesApp.Note)
  : option (list NotesApp.Note) :=
  match o, l with
  | None, [] => None
  | None, _ => Some l
  | Some g, _ => Some (g ++ l)
  end.

End MoreSpec.

(* ================================================================== *)
(** * Properties of the structural commands *)
(* ================================================================== *)

Lemma levelOr0_id l : levelOr0 l = l.
Proof. unfold levelOr0. destruct (Z.eqb_spec l 0); congruence. Qed.

Module EditorFacts.
Import Editor Spec.

Lemma nodeSize_pos n : 2 <= nodeSize n.
Proof. unfold nodeSize; lia. Qed.

(** What a resolved position inside a node says about the document. *)
Lemma resolve_from_inv nodes : forall start index pos i b n off,
  resolve_from nodes start index pos = InNode i b n off ->
  exists k, i = index + k /\ nth_error nodes k = Some n
            /\ b = start + posOf nodes k /\ b < pos < b + nodeSize n
            /\ off = pos - b - 1
            /\ indexAt_from nodes start index b = Some i.
Proof.
  induction nodes as [|x tl IH]; intros start index pos i b n off H; simpl in H.
  - discriminate.
  - destruct (pos <=? start) eqn:E1; [discriminate|].
    apply Nat.leb_gt in E1.
    destruct (pos <? start + nodeSize x) eqn:E2.
    + apply Nat.ltb_lt in E2. inversion H; subst; clear H.
      exists 0. simpl. rewrite Nat.eqb_refl.
      repeat split; try lia; reflexivity.
    + apply Nat.ltb_ge in E2.
      apply IH in H. destruct H as (k & Hi & Hn & Hb & Hr & Ho & Hx).
      exists (S k). simpl. pose proof (nodeSize_pos x).
      destruct (b =? start) eqn:E3; [apply Nat.eqb_eq in E3; lia|].
      repeat split; try lia; assumption.
Qed.

Lemma resolve_inv d pos i b n off :
  resolve d pos = InNode i b n off ->
  nth_error d i = Some n /\ b = posOf d i /\ b < pos < b + nodeSize n
  /\ off = pos - b - 1 /\ indexAt d b = Some i.
Proof.
  intros H. apply resolve_from_inv in H.
  destruct H as (k & Hi & Hn & Hb & Hr & Ho & Hx). simpl in *. subst i.
  repeat split; try assumption; lia.
Qed.

Lemma setLevel_length d i l : length (setLevel d i l) = length d.
Proof.
  unfold setLevel. destruct (nth_error d i) eqn:E; [|reflexivity].
  assert (i < length d) by (apply nth_error_Some; congruence).
  rewrite length_app, length_firstn. cbn [length]. rewrite length_skipn. lia.
Qed.

Lemma Forall_firstn_skipn (A : Type) (P : A -> Prop) i (l : list A) :
  Forall P l -> Forall P (firstn i l) /\ Forall P (skipn i l).
Proof.
  intros H. rewrite <- (firstn_skipn i l) in H.
  apply Forall_app in H. exact H.
Qed.

Lemma levelsInRange_firstn d i : levelsInRange d -> levelsInRange (firstn i d).
Proof. intros H. apply (Forall_firstn_skipn i H). Qed.

Lemma levelsInRange_skipn d i : levelsInRange d -> levelsInRange (skipn i d).
Proof. intros H. apply (Forall_firstn_skipn i H). Qed.

Lemma setLevel_inRange d i l :
  levelsInRange d -> (0 <= l <= 10)%Z -> levelsInRange (setLevel d i l).
Proof.
  intros Hd Hl. unfold setLevel. destruct (nth_error d i); [|assumption].
  apply Forall_app. split; [apply levelsInRange_firstn; assumption|].
  constructor; [exact Hl | exact (levelsInRange_skipn (S i) Hd)].
Qed.

Lemma nth_error_inRange d i n :
  levelsInRange d -> nth_error d i = Some n -> levelInRange n.
Proof.
  intros Hd Hn. unfold levelsInRange in Hd. rewrite Forall_forall in Hd.
  apply Hd. eapply nth_error_In; eauto.
Qed.

Lemma tr_split_inRange tr p tr' :
  levelsInRange (doc tr) -> tr_split tr p = Some tr' -> levelsInRange (doc tr').
Proof.
  intros Hd H. unfold tr_split in H.
  destruct (resolve (doc tr) p) as [i b n off|] eqn:E; [|discriminate].
  apply resolve_inv in E. destruct E as (Hn & _).
  destruct (cut (content n) off) as [bf af]. inversion H; subst; clear H.
  cbn [doc].
  pose proof (nth_error_inRange _ Hd Hn) as Hr.
  apply Forall_app. split; [apply levelsInRange_firstn; assumption|].
  constructor; [exact Hr|]. constructor; [exact Hr|].
  exact (levelsInRange_skipn (S i) Hd).
Qed.

Lemma tr_setNodeMarkup_inRange tr p l tr' :
  levelsInRange (doc tr) -> (0 <= l <= 10)%Z ->
  tr_setNodeMarkup tr p l = Some tr' -> levelsInRange (doc tr').
Proof.
  intros Hd Hl H. unfold tr_setNodeMarkup in H.
  destruct (indexAt (doc tr) p); [|discriminate].
  inversion H; subst; simpl. apply setLevel_inRange; assumption.
Qed.

Lemma Enter_inRange st b st' evs :
  levelsInRange (doc st) -> Enter st = Some (b, st', evs) ->
  levelsInRange (doc st').
Proof.
  intros Hd H. unfold Enter in H.
  destruct (resolve (doc st) (sel_from st)) as [i bf n off|] eqn:E.
  - apply resolve_inv in E. destruct E as (Hn & _).
    pose proof (nth_error_inRange _ Hd Hn) as Hr.
    destruct (tr_split st (sel_to st)) as [tr|] eqn:Es; [|discriminate].
    apply tr_split_inRange in Es; [|assumption].
    destruct (before _) as [np|]; [|discriminate].
    destruct (tr_setNodeMarkup tr np _) as [tr2|] eqn:Em; [|discriminate].
    inversion H; subst.
    eapply tr_setNodeMarkup_inRange; [exact Es| |exact Em].
    rewrite levelOr0_id. exact Hr.
  - inversion H; subst; assumption.
Qed.

Lemma indent_inRange dp st b st' evs :
  levelsInRange (doc st) -> indent dp st = Some (b, st', evs) ->
  levelsInRange (doc st').
Proof.
  intros Hd H. unfold indent in H.
  destruct (resolve (doc st) (sel_from st)) as [i bf n off|] eqn:E.
  - apply resolve_inv in E. destruct E as (Hn & _).
    pose proof (nth_error_inRange _ Hd Hn) as Hr. red in Hr.
    destruct (tr_setNodeMarkup st bf _) as [tr2|] eqn:Em; [|discriminate].
    destruct dp; inversion H; subst; [|assumption].
    eapply tr_setNodeMarkup_inRange; [exact Hd| |exact Em].
    rewrite levelOr0_id. lia.
  - inversion H; subst; assumption.
Qed.

Lemma unindent_inRange dp st b st' evs :
  levelsInRange (doc st) -> unindent dp st = Some (b, st', evs) ->
  levelsInRange (doc st').
Proof.
  intros Hd H. unfold unindent in H.
  destruct (resolve (doc st) (sel_from st)) as [i bf n off|] eqn:E.
  - apply resolve_inv in E. destruct E as (Hn & _).
    pose proof (nth_error_inRange _ Hd Hn) as Hr. red in Hr.
    rewrite levelOr0_id in H.
    destruct (Z.eqb_spec (level n) 0); [inversion H; subst; assumption|].
    destruct (tr_setNodeMarkup st bf _) as [tr2|] eqn:Em; [|discriminate].
    destruct dp; inversion H; subst; [|assumption].
    eapply tr_setNodeMarkup_inRange; [exact Hd| |exact Em]. lia.
  - inversion H; subst; assumption.
Qed.

(** ** Positions in a document built around a node *)

Lemma docSize_app d1 d2 : docSize (d1 ++ d2) = docSize d1 + docSize d2.
Proof. induction d1 as [|n tl IH]; simpl; [reflexivity | rewrite IH; lia]. Qed.

Lemma posOf_firstn d : forall i, docSize (firstn i d) = posOf d i.
Proof.
  induction d as [|n tl IH]; intros [|i]; simpl; try reflexivity.
  rewrite IH. reflexivity.
Qed.

Lemma resolve_from_mid pre : forall start index x post pos,
  start + docSize pre < pos < start + docSize pre + nodeSize x ->
  resolve_from (pre ++ x :: post) start index pos
  = InNode (index + length pre) (start + docSize pre) x
           (pos - (start + docSize pre) - 1).
Proof.
  induction pre as [|y pre IH]; intros start index x post pos H; simpl in *.
  - destruct (Nat.leb_spec pos start); [lia|].
    destruct (Nat.ltb_spec pos (start + nodeSize x)); [|lia].
    rewrite !Nat.add_0_r. reflexivity.
  - pose proof (nodeSize_pos y).
    destruct (Nat.leb_spec pos start); [lia|].
    destruct (Nat.ltb_spec pos (start + nodeSize y)); [lia|].
    rewrite IH by lia. f_equal; lia.
Qed.

(** The part before the cut has the size of the offset. *)
Lemma cut_size cs : forall off bf af,
  cut cs off = (bf, af) -> off <= contentSize cs -> contentSize bf = off.
Proof.
  induction cs as [|c tl IH]; intros off bf af H Hle; simpl in *.
  - inversion H; subst. simpl. lia.
  - destruct (Nat.eqb_spec off 0).
    + inversion H; subst. reflexivity.
    + destruct (Nat.leb_spec (inlineSize c) off).
      * destruct (cut tl (off - inlineSize c)) as [b a] eqn:E.
        inversion H; subst. simpl. rewrite (IH _ _ _ E); lia.
      * destruct c as [t ms|]; simpl in *; [|lia].
        inversion H; subst. simpl. rewrite length_firstn. lia.
Qed.

(** The cut loses nothing: the tokens before and after it are the tokens
    of the content. *)
Lemma cut_tokens cs : forall off bf af,
  cut cs off = (bf, af) -> tokens bf ++ tokens af = tokens cs.
Proof.
  induction cs as [|c tl IH]; intros off bf af H; simpl in *.
  - inversion H; subst. reflexivity.
  - destruct (Nat.eqb_spec off 0).
    + inversion H; subst. reflexivity.
    + destruct (Nat.leb_spec (inlineSize c) off).
      * destruct (cut tl (off - inlineSize c)) as [b a] eqn:E.
        inversion H; subst. simpl. rewrite <- app_assoc, (IH _ _ _ E).
        reflexivity.
      * destruct c as [t ms|]; inversion H; subst; [|reflexivity].
        simpl. rewrite app_nil_r, app_assoc, <- map_app, firstn_skipn.
        reflexivity.
Qed.

Lemma indent_total dp st : indent dp st <> None.
Proof.
  unfold indent. destruct (resolve _ _) eqn:E; [|discriminate].
  apply resolve_inv in E. destruct E as (_ & _ & _ & _ & Hx).
  unfold tr_setNodeMarkup. rewrite Hx. destruct dp; discriminate.
Qed.

Lemma unindent_total dp st : unindent dp st <> None.
Proof.
  unfold unindent. destruct (resolve _ _) eqn:E; [|discriminate].
  apply resolve_inv in E. destruct E as (_ & _ & _ & _ & Hx).
  destruct (_ =? 0)%Z; [discriminate|].
  unfold tr_setNodeMarkup. rewrite Hx. destruct dp; discriminate.
Qed.

Lemma Backspace_total st : Backspace st <> None.
Proof.
  unfold Backspace. destruct (negb (sel_empty st)); [discriminate|].
  destruct (resolve _ _); [|discriminate].
  destruct (negb _); [discriminate|]. destruct (_ =? 0); discriminate.
Qed.


End EditorFacts.

Module EditorClaims.
Import Editor Spec EditorFacts.

Lemma act_inRange a st b st' evs :
  structural a = true -> levelsInRange (doc st) ->
  act a st = Some (b, st', evs) -> levelsInRange (doc st').
Proof.
  intros Ha Hd H. destruct a; simpl in *; try discriminate.
  - eapply Enter_inRange; eauto.
  - eapply indent_inRange; eauto.
  - eapply unindent_inRange; eauto.
  - inversion H; subst; assumption.
Qed.

(** C4: from a document whose levels all lie in [0, 10], every session of
    indent, unindent and split calls (with any moves of the selection in
    between) ends in a document whose levels all lie in [0, 10]. *)
Theorem C4_levels_stay_in_range :
  forall acts st st' evs,
    forallb structural acts = true ->
    levelsInRange (doc st) ->
    session acts st = Some (st', evs) ->
    levelsInRange (doc st').
Proof.
  induction acts as [|a tl IH]; intros st st' evs Hs Hd H; simpl in *.
  - inversion H; subst; assumption.
  - apply andb_prop in Hs. destruct Hs as [Ha Htl].
    destruct (act a st) as [[[b st1] ev1]|] eqn:Ea; [|discriminate].
    destruct (session tl st1) as [[st2 ev2]|] eqn:Es; [|discriminate].
    inversion H; subst. eapply IH; [exact Htl| |exact Es].
    eapply act_inRange; eauto.
Qed.

Lemma C4_levels_stay_in_range_witness :
  let acts := [PressTab; PressTab; PressEnter; PressShiftTab; Select 1 1;
               PressShiftTab; PressEnter; PressTab] in
  let st := State [Node 9 [Text (lit "deep") []]] 3 3 in
  let st' := State [Node 9 []; Node 10 [Text (lit "de") []];
                    Node 9 [Text (lit "ep") []]] 3 3 in
  let evs := [NodeIndented 0 10; NodeIndented 0 10; NodeCreated 4;
              NodeUnindented 4 9; NodeUnindented 0 9; NodeCreated 2;
              NodeIndented 2 10] in
  forallb structural acts = true
  /\ levelsInRange (doc st)
  /\ session acts st = Some (st', evs)
  /\ levelsInRange (doc st').
Proof.
  intros acts st st' evs.
  assert (Hs : forallb structural acts = true) by reflexivity.
  assert (Hd : levelsInRange (doc st))
    by (repeat constructor; simpl; lia).
  assert (He : session acts st = Some (st', evs)) by reflexivity.
  split; [exact Hs|]. split; [exact Hd|]. split; [exact He|].
  exact (C4_levels_stay_in_range acts st Hs Hd He).
Defined.

(** C5: with the selection in a node at level 0, [unindent] returns false,
    leaves the state as it is and fires no event. *)
Theorem C5_unindent_at_level_zero :
  forall dispatch st i b n off,
    resolve (doc st) (sel_from st) = InNode i b n off ->
    level n = 0%Z ->
    unindent dispatch st = Some (false, st, []).
Proof.
  intros dispatch st i b n off Hr Hl. unfold unindent.
  rewrite Hr, levelOr0_id, Hl. reflexivity.
Qed.

Lemma C5_unindent_at_level_zero_witness :
  let st := State [Node 1 [Text (lit "a") []]; Node 0 [Text (lit "bc") []]] 5 6 in
  resolve (doc st) (sel_from st) = InNode 1 3 (Node 0 [Text (lit "bc") []]) 1
  /\ level (Node 0 [Text (lit "bc") []]) = 0%Z
  /\ unindent true st = Some (false, st, []).
Proof.
  intros st.
  assert (Hr : resolve (doc st) (sel_from st)
               = InNode 1 3 (Node 0 [Text (lit "bc") []]) 1) by reflexivity.
  split; [exact Hr|]. split; [reflexivity|].
  exact (C5_unindent_at_level_zero true st Hr eq_refl).
Defined.

(** The clamp of [indent]: in a node at level 10 the command goes through. *)
Lemma indent_at_max st i b n off :
  resolve (doc st) (sel_from st) = InNode i b n off ->
  level n = 10%Z ->
  indent true st = Some (true, st, [NodeIndented b 10]).
Proof.
  intros Hr Hl. unfold indent. rewrite Hr, levelOr0_id, Hl.
  apply resolve_inv in Hr. destruct Hr as (Hn & _ & _ & _ & Hx).
  unfold tr_setNodeMarkup. rewrite Hx. unfold setLevel. rewrite Hn.
  change (Z.min (10 + 1) 10) with 10%Z.
  assert (Hnode : Node 10 (content n) = n)
    by (destruct n; simpl in *; subst; reflexivity).
  rewrite Hnode, (firstn_skipn_middle _ _ Hn).
  destruct st; reflexivity.
Qed.

(** C2: at level 10 [indent] is not the no-op the specification asks for:
    run through the [Tab] handler it returns true and fires [node-indented]
    with level 10 (and tried without dispatch it still returns true); only
    the document is left as it was. *)
Theorem C2_indent_at_max_depth_applies :
  let st := State [Node 10 [Text (lit "deep") []]] 2 2 in
  indent true st = Some (true, st, [NodeIndented 0 10])
  /\ indent false st = Some (true, st, []).
Proof. split; reflexivity. Qed.

(** C6: with a range selected the handler cuts at the end of the range, but
    the position it reports (and re-marks) is that of the node holding the
    start of the range, the old node at 0, while the new node is at 3. *)
Theorem C6_enter_range_reports_old_node :
  let st := State [Node 0 [Text (lit "ab") []]] 1 2 in
  let d' := [Node 0 [Text (lit "a") []]; Node 0 [Text (lit "b") []]] in
  Enter st = Some (true, State d' 1 4, [NodeCreated 0])
  /\ posOf d' 1 = 3.
Proof. split; reflexivity. Qed.

(** ** The document stays non-empty *)

Lemma doc_nonempty_length (d : Doc) : d <> [] <-> 0 < length d.
Proof. destruct d; simpl; split; intros; try lia; congruence. Qed.

Lemma tr_setNodeMarkup_length tr p l tr' :
  tr_setNodeMarkup tr p l = Some tr' -> length (doc tr') = length (doc tr).
Proof.
  unfold tr_setNodeMarkup. destruct (indexAt (doc tr) p); [|discriminate].
  intros H; inversion H; subst; simpl. apply setLevel_length.
Qed.

Lemma tr_split_length tr p tr' :
  tr_split tr p = Some tr' -> 0 < length (doc tr').
Proof.
  unfold tr_split. destruct (resolve (doc tr) p); [|discriminate].
  destruct (cut _ _). intros H; inversion H; subst; cbn [doc].
  rewrite length_app. cbn [length]. lia.
Qed.

Lemma tr_deleteNode_length tr i b : 0 < length (doc (tr_deleteNode tr i b)).
Proof.
  unfold tr_deleteNode, docMinNodes.
  destruct (length (removeAt (doc tr) i) <? 1) eqn:E; [simpl; lia|].
  apply Nat.ltb_ge in E.
  destruct (i <? length (removeAt (doc tr) i)); simpl; lia.
Qed.

Lemma act_nonempty a st b st' evs :
  doc st <> [] -> act a st = Some (b, st', evs) -> doc st' <> [].
Proof.
  rewrite !doc_nonempty_length. intros Hd H. destruct a; simpl in H.
  - unfold Enter in H. destruct (resolve _ _).
    + destruct (tr_split _ _) as [tr|] eqn:Es; [|discriminate].
      destruct (before _); [|discriminate].
      destruct (tr_setNodeMarkup tr _ _) as [tr2|] eqn:Em; [|discriminate].
      inversion H; subst. rewrite (tr_setNodeMarkup_length _ _ _ Em).
      eapply tr_split_length; eauto.
    + inversion H; subst; assumption.
  - unfold indent in H. destruct (resolve _ _).
    + destruct (tr_setNodeMarkup _ _ _) as [tr2|] eqn:Em; [|discriminate].
      inversion H; subst. rewrite (tr_setNodeMarkup_length _ _ _ Em). assumption.
    + inversion H; subst; assumption.
  - unfold unindent in H. destruct (resolve _ _).
    + destruct (_ =? 0)%Z; [inversion H; subst; assumption|].
      destruct (tr_setNodeMarkup _ _ _) as [tr2|] eqn:Em; [|discriminate].
      inversion H; subst. rewrite (tr_setNodeMarkup_length _ _ _ Em). assumption.
    + inversion H; subst; assumption.
  - unfold Backspace in H. destruct (negb (sel_empty st)).
    + inversion H; subst; assumption.
    + destruct (resolve _ _); [|inversion H; subst; assumption].
      destruct (negb _); [inversion H; subst; assumption|].
      destruct (_ =? 0); inversion H; subst; [|assumption].
      apply tr_deleteNode_length.
  - inversion H; subst; assumption.
Qed.

(** C3 (as the code has it): from a non-empty document every session of key
    presses and selection moves ends in a non-empty document; when the
    state it ends in is a single empty node with the cursor in it, Backspace
    is applied (it returns true) and leaves a single empty node at level
    0. *)
Theorem C3_document_never_empty :
  forall acts st st' evs,
    doc st <> [] ->
    session acts st = Some (st', evs) ->
    doc st' <> []
    /\ (forall n, st' = State [n] 1 1 -> contentSize (content n) = 0 ->
          Backspace st' = Some (true, State [defaultNode] 1 1, [])).
Proof.
  intros acts st st' evs Hd H. split.
  - revert st st' evs Hd H.
    induction acts as [|a tl IH]; intros st st' evs Hd H; simpl in H.
    + inversion H; subst; assumption.
    + destruct (act a st) as [[[b st1] ev1]|] eqn:Ea; [|discriminate].
      destruct (session tl st1) as [[st2 ev2]|] eqn:Es; [|discriminate].
      inversion H; subst. eapply IH; [|exact Es].
      eapply act_nonempty; eauto.
  - intros n -> Hc. unfold Backspace, sel_empty, sel_from, resolve.
    cbn [doc anchor head resolve_from Nat.min Nat.eqb negb Nat.leb].
    unfold nodeSize. rewrite Hc. cbn. rewrite Hc. reflexivity.
Qed.

Lemma C3_document_never_empty_witness :
  let acts := [PressEnter; PressBackspace; PressBackspace; PressBackspace] in
  let st := State [Node 2 []] 1 1 in
  let st' := State [Node 0 []] 1 1 in
  doc st <> []
  /\ session acts st = Some (st', [NodeCreated 2])
  /\ doc st' <> []
  /\ (forall n, st' = State [n] 1 1 -> contentSize (content n) = 0 ->
        Backspace st' = Some (true, State [defaultNode] 1 1, [])).
Proof.
  intros acts st st'.
  assert (Hd : doc st <> []) by discriminate.
  assert (He : session acts st = Some (st', [NodeCreated 2])) by reflexivity.
  split; [exact Hd|]. split; [exact He|].
  exact (C3_document_never_empty acts st Hd He).
Defined.

(** C3, as stated, fails: on a document of one empty node at level 1 the
    merge is not a no-op; it returns true and the document changes. *)
Lemma C3_counterexample :
  let st := State [Node 1 []] 1 1 in
  length (doc st) = 1
  /\ ~ (exists evs, Backspace st = Some (false, st, evs))
  /\ Backspace st = Some (true, State [Node 0 []] 1 1, [])
  /\ doc (State [Node 0 []] 1 1) <> doc st.
Proof.
  simpl. split; [reflexivity|]. split.
  - intros [evs H]. discriminate H.
  - split; [reflexivity|discriminate].
Qed.

End EditorClaims.

(* ================================================================== *)
(** * Properties of the export *)
(* ================================================================== *)

Module ExportFacts.
Import Regex Transcoder Spec.

Lemma childToText_renderRun c : childToText c = renderRun c.
Proof. destruct c; reflexivity. Qed.

Lemma nodeToText_acc cs : forall acc,
  fold_left (fun text child => text ++ childToText child) cs acc
  = acc ++ renderInline cs.
Proof.
  induction cs as [|c tl IH]; intros acc; simpl.
  - unfold renderInline. simpl. rewrite app_nil_r. reflexivity.
  - rewrite IH. unfold renderInline. simpl.
    rewrite childToText_renderRun, app_assoc. reflexivity.
Qed.

Lemma nodeToText_renderInline n : nodeToText n = renderInline (content n).
Proof. unfold nodeToText. rewrite nodeToText_acc. reflexivity. Qed.

Lemma concat_repeat_indent k :
  concat (List.repeat (lit "  ") k) = List.repeat SPACE (2 * k).
Proof.
  induction k as [|k IH]; [reflexivity|].
  replace (2 * S k) with (S (S (2 * k))) by lia.
  simpl List.repeat. simpl concat. rewrite IH. reflexivity.
Qed.

Lemma nodeLine_exportLine n :
  (0 <= level n)%Z -> nodeLine n = Some (exportLine n).
Proof.
  intros H. unfold nodeLine, JS.repeat, exportLine. rewrite levelOr0_id.
  destruct (Z.ltb_spec (level n) 0); [lia|].
  rewrite concat_repeat_indent, nodeToText_renderInline. reflexivity.
Qed.

Lemma nodeLines_exportLine d :
  Forall (fun n => (0 <= level n)%Z) d ->
  nodeLines d = Some (map exportLine d).
Proof.
  induction 1 as [|n tl Hn Htl IH]; simpl; [reflexivity|].
  rewrite (nodeLine_exportLine n Hn), IH. reflexivity.
Qed.

Lemma toMarkdown_exportLine d :
  Forall (fun n => (0 <= level n)%Z) d ->
  toMarkdown d = Some (join LF (map exportLine d)).
Proof.
  intros H. unfold toMarkdown. rewrite (nodeLines_exportLine H). reflexivity.
Qed.

Lemma wrap_filter_rendered ms : forall t,
  fold_left wrapMark (filter rendered ms) t = fold_left wrapMark ms t.
Proof.
  induction ms as [|mk tl IH]; intros t; [reflexivity|].
  destruct mk; simpl; apply IH.
Qed.

Lemma childToText_erase c : childToText (eraseUnrendered c) = childToText c.
Proof. destruct c; simpl; [apply wrap_filter_rendered|reflexivity]. Qed.

Lemma renderInline_erase cs :
  renderInline (map eraseUnrendered cs) = renderInline cs.
Proof.
  unfold renderInline. induction cs as [|c tl IH]; [reflexivity|].
  simpl. rewrite IH, <- !childToText_renderRun, childToText_erase. reflexivity.
Qed.

Lemma nodeLine_erase n : nodeLine (eraseNode n) = nodeLine n.
Proof.
  unfold nodeLine. rewrite !nodeToText_renderInline. simpl.
  rewrite renderInline_erase. reflexivity.
Qed.

Lemma toMarkdown_erase d : toMarkdown (map eraseNode d) = toMarkdown d.
Proof.
  assert (H : nodeLines (map eraseNode d) = nodeLines d).
  { induction d as [|n tl IH]; [reflexivity|].
    simpl. rewrite nodeLine_erase, IH. reflexivity. }
  unfold toMarkdown. rewrite H. reflexivity.
Qed.

End ExportFacts.

Module ExportClaims.
Import Regex Transcoder Spec ExportFacts.

(** C7: the export of a document (levels not negative) is one line per node
    in document order, each two spaces per level, then "- ", then the
    rendered inline content, the lines joined by newlines; the document
    [{level 0, "A"}, {level 1, "B"}] exports as "- A", newline, "  - B". *)
Theorem C7_toMarkdown_lines :
  forall d,
    Forall (fun n => (0 <= level n)%Z) d ->
    toMarkdown d = Some (join LF (map exportLine d))
    /\ length (map exportLine d) = length d
    /\ toMarkdown [Node 0 [Text (lit "A") []]; Node 1 [Text (lit "B") []]]
       = Some (lit "- A" ++ LF :: lit "  - B").
Proof.
  intros d H. split; [apply toMarkdown_exportLine; exact H|].
  split; [apply length_map | reflexivity].
Qed.

Lemma C7_toMarkdown_lines_witness :
  let d := [Node 0 [Text (lit "top") [Bold]; HardBreak];
            Node 2 [Text (lit "x") []; Text (lit "y") [Code]]] in
  Forall (fun n => (0 <= level n)%Z) d
  /\ toMarkdown d = Some (join LF (map exportLine d))
  /\ length (map exportLine d) = length d
  /\ toMarkdown [Node 0 [Text (lit "A") []]; Node 1 [Text (lit "B") []]]
     = Some (lit "- A" ++ LF :: lit "  - B").
Proof.
  intros d.
  assert (H : Forall (fun n => (0 <= level n)%Z) d)
    by (repeat constructor; simpl; lia).
  split; [exact H|]. exact (C7_toMarkdown_lines H).
Defined.

(** C9 (as the code has it): the marks of a run wrap its text as nested
    spans in the order they are listed, the first listed innermost and the
    last listed outermost; bold is outermost when it is listed last. *)
Theorem C9_marks_wrap_in_listed_order :
  forall t ms mk,
    childToText (Text t (ms ++ [mk])) = wrapMark (childToText (Text t ms)) mk
    /\ childToText (Text t (mk :: ms)) = childToText (Text (wrapMark t mk) ms)
    /\ childToText (Text t (ms ++ [Bold]))
       = lit "**" ++ childToText (Text t ms) ++ lit "**".
Proof.
  intros t ms mk. simpl. rewrite !fold_left_app. simpl. auto.
Qed.

(** C9, as stated, fails: with bold listed before code, code is the
    outermost span, and the two listings of the same marks export
    differently. *)
Lemma C9_counterexample :
  childToText (Text (lit "x") [Bold; Code]) = lit "`**x**`"
  /\ childToText (Text (lit "x") [Code; Bold]) = lit "**`x`**"
  /\ ~ (forall t ms, In Bold ms -> In Italic ms \/ In Code ms ->
          exists inner,
            childToText (Text t ms) = lit "**" ++ inner ++ lit "**").
Proof.
  split; [reflexivity|]. split; [reflexivity|].
  intros H.
  destruct (H (lit "x") [Bold; Code]) as [inner E];
    [left; reflexivity | right; right; left; reflexivity |].
  discriminate E.
Qed.

(** C10: marks other than bold, italic and code leave no trace in the
    export: documents that are equal once those marks are erased export the
    same, and a run whose marks are all of that kind (a link, say) exports
    as its bare text. *)
Theorem C10_unrendered_marks_dropped :
  forall d1 d2,
    map eraseNode d1 = map eraseNode d2 ->
    toMarkdown d1 = toMarkdown d2
    /\ (forall t ms, filter rendered ms = [] -> childToText (Text t ms) = t)
    /\ (forall t href, childToText (Text t [Link href]) = t).
Proof.
  intros d1 d2 H. split.
  - rewrite <- (toMarkdown_erase d1), <- (toMarkdown_erase d2), H. reflexivity.
  - split; [|reflexivity].
    intros t ms Hms. simpl. rewrite <- wrap_filter_rendered, Hms. reflexivity.
Qed.

Lemma C10_unrendered_marks_dropped_witness :
  let d1 := [Node 1 [Text (lit "see") [Link (lit "http://a")];
                     Text (lit "b") [Link (lit "u"); Bold]]] in
  let d2 := [Node 1 [Text (lit "see") [];
                     Text (lit "b") [Bold; OtherMark (lit "strike")]]] in
  map eraseNode d1 = map eraseNode d2
  /\ toMarkdown d1 = toMarkdown d2
  /\ (forall t ms, filter rendered ms = [] -> childToText (Text t ms) = t)
  /\ (forall t href, childToText (Text t [Link href]) = t).
Proof.
  intros d1 d2.
  assert (H : map eraseNode d1 = map eraseNode d2) by reflexivity.
  split; [exact H|]. exact (C10_unrendered_marks_dropped d1 d2 H).
Defined.

End ExportClaims.

(* ================================================================== *)
(** * The matcher against the declarative meaning of patterns *)
(* ================================================================== *)

Module RegexFacts.
Import Regex Spec.

Lemma star_sound p : forall s i cs k res,
  star p i s cs k = Some res ->
  exists st', Matches (RStar p) (MState i s cs) st' /\ k st' = Some res.
Proof.
  induction s as [|c tl IH]; intros i cs k res H; simpl in H.
  - eexists; split; [apply M_StarNil | exact H].
  - destruct (p c) eqn:Ep.
    + destruct (star p (S i) tl cs k) as [r|] eqn:Es.
      * inversion H; subst. apply IH in Es. destruct Es as (st' & Hm & Hk).
        exists st'. split; [apply M_StarCons; assumption | exact Hk].
      * eexists; split; [apply M_StarNil | exact H].
    + eexists; split; [apply M_StarNil | exact H].
Qed.

(** Soundness: a result of the matcher is a result of the continuation on a
    state the pattern leads to. *)
Lemma m_sound : forall r st k res,
  m r st k = Some res ->
  exists st', Matches r st st' /\ k st' = Some res.
Proof.
  induction r; intros [j s cs] k res H; simpl in H.
  - eexists; split; [constructor | exact H].
  - destruct s as [|x tl]; [discriminate|].
    destruct (N.eqb_spec x c); [subst|discriminate].
    eexists; split; [constructor | exact H].
  - destruct s as [|x tl]; [discriminate|].
    destruct (p x) eqn:Ep; [|discriminate].
    eexists; split; [constructor; exact Ep | exact H].
  - apply star_sound; exact H.
  - destruct s as [|x tl]; [discriminate|].
    destruct (p x) eqn:Ep; [|discriminate].
    apply star_sound in H. destruct H as (st' & Hm & Hk).
    exists st'. split; [constructor; assumption | exact Hk].
  - apply IHr1 in H. destruct H as (st1 & H1 & H).
    apply IHr2 in H. destruct H as (st2 & H2 & H).
    exists st2. split; [econstructor; eassumption | exact H].
  - destruct (m r1 (MState j s cs) k) as [r|] eqn:E1.
    + inversion H; subst. apply IHr1 in E1. destruct E1 as (st' & Hm & Hk).
      exists st'. split; [apply M_AltL; assumption | exact Hk].
    + apply IHr2 in H. destruct H as (st' & Hm & Hk).
      exists st'. split; [apply M_AltR; assumption | exact Hk].
  - apply IHr in H. destruct H as (st' & Hm & Hk).
    eexists. split; [apply M_Group; eassumption | exact Hk].
  - destruct j; [|discriminate].
    eexists; split; [constructor; reflexivity | exact H].
  - destruct s; [|discriminate].
    eexists; split; [constructor; reflexivity | exact H].
Qed.

(** Completeness: if the pattern leads to a state on which the continuation
    succeeds, the matcher succeeds. *)
Lemma m_complete : forall r st st',
  Matches r st st' ->
  forall k, (exists res, k st' = Some res) -> exists res, m r st k = Some res.
Proof.
  induction 1; intros k Hk; simpl.
  - exact Hk.
  - rewrite N.eqb_refl. exact Hk.
  - rewrite H. exact Hk.
  - destruct s as [|c tl]; simpl; [exact Hk|].
    destruct (p c); [|exact Hk].
    destruct (star p (S i) tl cs k); [eexists; reflexivity | exact Hk].
  - rewrite H. destruct (IHMatches k Hk) as [r Hr]. simpl in Hr.
    rewrite Hr. eexists; reflexivity.
  - rewrite H. exact (IHMatches k Hk).
  - apply IHMatches1. apply IHMatches2. exact Hk.
  - destruct (IHMatches k Hk) as [r Hr]. rewrite Hr. eexists; reflexivity.
  - destruct (m a st k); [eexists; reflexivity | exact (IHMatches k Hk)].
  - apply IHMatches. exact Hk.
  - rewrite H. exact Hk.
  - rewrite H. exact Hk.
Qed.

Lemma run_sound r i s res :
  run r i s = Some res -> Matches r (MState i s []) res.
Proof.
  intros H. apply m_sound in H. destruct H as (st' & Hm & Hk).
  inversion Hk; subst. exact Hm.
Qed.

Lemma run_complete r i s st' :
  Matches r (MState i s []) st' -> exists res, run r i s = Some res.
Proof.
  intros H. apply (m_complete H). eexists; reflexivity.
Qed.

(** ** Shape of what a pattern leads to *)

Lemma Matches_seq_inv a b st st'' :
  Matches (RSeq a b) st st'' ->
  exists st', Matches a st st' /\ Matches b st' st''.
Proof. intros H; inversion H; subst; eauto. Qed.

Lemma Matches_group_inv i a st st'' :
  Matches (RGroup i a) st st'' ->
  exists st', Matches a st st' /\ st'' = set_cap i st st'.
Proof. intros H; inversion H; subst; eauto. Qed.

Lemma Matches_char_inv c st st' :
  Matches (RChar c) st st' ->
  exists s, rest st = c :: s /\ st' = MState (S (pos st)) s (caps st).
Proof. intros H; inversion H; subst; simpl; eauto. Qed.

Lemma Matches_bol_inv st st' : Matches RBol st st' -> st' = st /\ pos st = 0.
Proof. intros H; inversion H; subst; auto. Qed.

Lemma Matches_eol_inv st st' : Matches REol st st' -> st' = st /\ rest st = [].
Proof. intros H; inversion H; subst; auto. Qed.

Lemma Matches_star_inv p st st' :
  Matches (RStar p) st st' ->
  exists w, rest st = w ++ rest st'
            /\ Forall (fun c => p c = true) w
            /\ pos st' = pos st + length w /\ caps st' = caps st.
Proof.
  intros H. remember (RStar p) as r eqn:Er. revert Er.
  induction H; intros Er; try discriminate; inversion Er; subst.
  - exists []. simpl. repeat split; auto.
  - destruct (IHMatches eq_refl) as (w & Hr & Hw & Hp & Hc). simpl in *.
    exists (c :: w). simpl. rewrite Hr.
    repeat split; auto. lia.
Qed.

Lemma Matches_plus_inv p st st' :
  Matches (RPlus p) st st' ->
  exists w, w <> [] /\ rest st = w ++ rest st'
            /\ Forall (fun c => p c = true) w
            /\ pos st' = pos st + length w /\ caps st' = caps st.
Proof.
  intros H. inversion H as [| | | | |p0 c i s cs st0 Hc0 Hs| | | | | |]; subst.
  apply Matches_star_inv in Hs. destruct Hs as (w & Hr & Hw & Hp & Hc).
  simpl in *. exists (c :: w). simpl. rewrite Hr.
  repeat split; auto; [discriminate | lia].
Qed.

Lemma Matches_star_intro p w : forall i s cs,
  Forall (fun c => p c = true) w ->
  Matches (RStar p) (MState i (w ++ s) cs) (MState (i + length w) s cs).
Proof.
  induction w as [|c w IH]; intros i s cs Hw; simpl.
  - rewrite Nat.add_0_r. constructor.
  - inversion Hw; subst. apply M_StarCons; [assumption|].
    replace (i + S (length w)) with (S i + length w) by lia.
    apply IH; assumption.
Qed.

(** The greedy path: when the continuation accepts the longest repetition,
    that is the result. *)
Lemma star_greedy p w : forall i s cs k res,
  Forall (fun c => p c = true) w ->
  match s with [] => True | c :: _ => p c = false end ->
  k (MState (i + length w) s cs) = Some res ->
  star p i (w ++ s) cs k = Some res.
Proof.
  induction w as [|c w IH]; intros i s cs k res Hw Hs Hk; simpl in *.
  - rewrite Nat.add_0_r in Hk. destruct s as [|x tl]; simpl; [exact Hk|].
    rewrite Hs. exact Hk.
  - inversion Hw; subst. rewrite H1.
    rewrite (IH (S i) s cs k res); auto.
    replace (S i + length w) with (i + S (length w)) by lia. exact Hk.
Qed.

(** ** The split loop never runs out of fuel *)

Lemma Matches_suffix r st st' :
  Matches r st st' ->
  exists w, rest st = w ++ rest st' /\ pos st' = pos st + length w.
Proof.
  induction 1; simpl in *.
  - exists []. split; [reflexivity | simpl; lia].
  - exists [c]. split; [reflexivity | simpl; lia].
  - exists [c]. split; [reflexivity | simpl; lia].
  - exists []. split; [reflexivity | simpl; lia].
  - destruct IHMatches as (w & Hr & Hp). exists (c :: w).
    simpl. rewrite Hr. split; [reflexivity | simpl; lia].
  - destruct IHMatches as (w & Hr & Hp). exists (c :: w).
    simpl. rewrite Hr. split; [reflexivity | simpl; lia].
  - destruct IHMatches1 as (w1 & Hr1 & Hp1).
    destruct IHMatches2 as (w2 & Hr2 & Hp2).
    exists (w1 ++ w2). rewrite Hr1, Hr2, <- app_assoc, length_app.
    split; [reflexivity | simpl; lia].
  - exact IHMatches.
  - exact IHMatches.
  - exact IHMatches.
  - exists []. split; [reflexivity | simpl; lia].
  - exists []. split; [reflexivity | simpl; lia].
Qed.

Lemma run_suffix r q s st :
  run r q s = Some st ->
  exists w, s = w ++ rest st /\ pos st = q + length w.
Proof. intros H. apply run_sound, Matches_suffix in H. exact H. Qed.

Lemma splitMeasure_snoc (piece : jsstring) c tl :
  splitMeasure (piece ++ [c]) tl < splitMeasure piece (c :: tl).
Proof.
  unfold splitMeasure. destruct (piece ++ [c]); destruct piece; simpl; lia.
Qed.

Lemma split_loop_fuel r ng : forall fuel1 fuel2 q piece s,
  splitMeasure piece s < fuel1 ->
  splitMeasure piece s < fuel2 ->
  split_loop fuel1 r ng q piece s = split_loop fuel2 r ng q piece s.
Proof.
  induction fuel1 as [|f1 IH]; intros fuel2 q piece s H1 H2; [lia|].
  destruct fuel2 as [|f2]; [lia|].
  cbn [split_loop]. destruct s as [|c tl]; [reflexivity|].
  pose proof (splitMeasure_snoc piece c tl) as Hsn.
  destruct (run r q (c :: tl)) as [st|] eqn:E.
  - destruct (Nat.eqb_spec (pos st) (q - length piece)) as [Ep|Ep].
    + apply IH; lia.
    + f_equal. f_equal. apply IH.
      * apply run_suffix in E. destruct E as (w & Hs & Hp).
        assert (Hl : length (c :: tl) = length w + length (rest st))
          by (rewrite Hs at 1; apply length_app).
        unfold splitMeasure in *. cbn [length] in *.
        destruct w as [|x w]; simpl in *; [|lia].
        destruct piece; simpl in *; lia.
      * apply run_suffix in E. destruct E as (w & Hs & Hp).
        assert (Hl : length (c :: tl) = length w + length (rest st))
          by (rewrite Hs at 1; apply length_app).
        unfold splitMeasure in *. cbn [length] in *.
        destruct w as [|x w]; simpl in *; [|lia].
        destruct piece; simpl in *; lia.
  - apply IH; lia.
Qed.

(** Any larger fuel gives the result of [split_re]. *)
Lemma split_re_fuel r ng s fuel :
  2 * length s < fuel -> split_re r ng s = split_loop fuel r ng 0 [] s.
Proof.
  intros H. unfold split_re. apply split_loop_fuel; unfold splitMeasure; lia.
Qed.

End RegexFacts.

(* ================================================================== *)
(** * Properties of the import *)
(* ================================================================== *)

Module ImportFacts.
Import Regex Transcoder Spec RegexFacts.

Lemma dash_not_space : is_space DASH = false.
Proof. reflexivity. Qed.

(** The leading whitespace before the dash is determined by the line. *)
Lemma space_prefix_unique ws : forall ws' r r',
  Forall (fun c => is_space c = true) ws ->
  Forall (fun c => is_space c = true) ws' ->
  ws ++ DASH :: r = ws' ++ DASH :: r' -> ws = ws'.
Proof.
  induction ws as [|c ws IH]; intros [|c' ws'] r r' H1 H2 E; simpl in E.
  - reflexivity.
  - inversion E; subst. inversion H2; subst.
    rewrite dash_not_space in *. discriminate.
  - inversion E; subst. inversion H1; subst.
    rewrite dash_not_space in *. discriminate.
  - inversion E; subst. inversion H1; inversion H2; subst.
    f_equal. eapply IH; eauto.
Qed.

(** A match of the bullet pattern from the start of a line splits the line
    as [BulletLine] says, the two groups being the leading whitespace and
    the text. *)
Lemma bullet_inv i line res :
  Matches bullet_re (MState i line []) res ->
  i = 0 /\ exists ws sp txt,
    BulletLine line ws sp txt
    /\ group res 1 = Some ws /\ group res 2 = Some txt.
Proof.
  unfold bullet_re. intros H.
  apply Matches_seq_inv in H. destruct H as (s1 & H1 & H).
  apply Matches_bol_inv in H1. destruct H1 as [-> Hi]. simpl in Hi.
  apply Matches_seq_inv in H. destruct H as (s2 & H2 & H).
  apply Matches_group_inv in H2. destruct H2 as (s2' & H2 & ->).
  apply Matches_star_inv in H2. destruct H2 as (ws & Hr2 & Hws & Hp2 & Hc2).
  apply Matches_seq_inv in H. destruct H as (s3 & H3 & H).
  apply Matches_char_inv in H3. destruct H3 as (r3 & Hr3 & ->).
  apply Matches_seq_inv in H. destruct H as (s4 & H4 & H).
  apply Matches_plus_inv in H4.
  destruct H4 as (sp & Hsp & Hr4 & Hsps & Hp4 & Hc4).
  apply Matches_seq_inv in H. destruct H as (s5 & H5 & H).
  apply Matches_group_inv in H5. destruct H5 as (s5' & H5 & ->).
  apply Matches_star_inv in H5. destruct H5 as (txt & Hr5 & Htxt & Hp5 & Hc5).
  apply Matches_eol_inv in H. destruct H as [-> He].
  simpl in *. subst i. split; [reflexivity|].
  exists ws, sp, txt. rewrite He, app_nil_r in Hr5.
  split.
  - unfold BulletLine. repeat split; try assumption.
    rewrite Hr2, Hr3, Hr4, Hr5. reflexivity.
  - unfold group. simpl. rewrite Hc5, Hc4. simpl.
    replace (pos s5' - pos s4) with (length txt) by lia.
    replace (pos s2' - 0) with (length ws) by lia.
    rewrite Hr5, Hr2. rewrite firstn_all.
    rewrite firstn_app, firstn_all, Nat.sub_diag. simpl.
    rewrite app_nil_r. split; reflexivity.
Qed.

Lemma bullet_intro line ws sp txt :
  BulletLine line ws sp txt ->
  exists res, Matches bullet_re (MState 0 line []) res.
Proof.
  intros (E & Hws & Hsp & Hsps & Htxt). subst line.
  destruct sp as [|c sp]; [congruence|]. inversion Hsps; subst.
  rewrite <- (app_nil_r txt).
  eexists. unfold bullet_re.
  eapply M_Seq; [apply M_Bol; reflexivity|].
  eapply M_Seq; [apply M_Group; apply (Matches_star_intro _ _ _ _ Hws)|].
  unfold set_cap; simpl.
  eapply M_Seq; [apply M_Char|].
  eapply M_Seq.
  { apply M_Plus; [assumption|]. apply Matches_star_intro. assumption. }
  eapply M_Seq.
  { apply M_Group. apply Matches_star_intro. assumption. }
  apply M_Eol. reflexivity.
Qed.

(** The pattern is anchored: only the attempt at index 0 can succeed. *)
Lemma exec_from_bullet_later : forall s i,
  0 < i -> exec_from bullet_re i s = None.
Proof.
  assert (Hrun : forall s i, 0 < i -> run bullet_re i s = None).
  { intros s i Hi. destruct (run bullet_re i s) eqn:E; [|reflexivity].
    apply run_sound, bullet_inv in E. lia. }
  induction s as [|c tl IH]; intros i Hi; cbn [exec_from];
    rewrite (Hrun _ _ Hi).
  - reflexivity.
  - apply IH. lia.
Qed.

Lemma exec_bullet line : exec bullet_re line = run bullet_re 0 line.
Proof.
  unfold exec. destruct line as [|c tl]; cbn [exec_from].
  - destruct (run bullet_re 0 []); reflexivity.
  - destruct (run bullet_re 0 (c :: tl)); [reflexivity|].
    apply exec_from_bullet_later. lia.
Qed.

(** Both groups of the bullet pattern take part in every match. *)
Lemma bullet_groups_defined line mt :
  exec bullet_re line = Some mt ->
  exists ws txt, group mt 1 = Some ws /\ group mt 2 = Some txt.
Proof.
  rewrite exec_bullet. intros H. apply run_sound, bullet_inv in H.
  destruct H as (_ & ws & sp & txt & _ & H1 & H2). eauto.
Qed.

Lemma lineToNode_bullet line ws sp txt :
  BulletLine line ws sp txt ->
  exists node, lineToNode line = Some node
               /\ level node = Z.of_nat (length ws / 2).
Proof.
  intros HB. destruct (bullet_intro HB) as [res0 Hm].
  destruct (run_complete Hm) as [res Hrun].
  unfold lineToNode. rewrite exec_bullet, Hrun.
  apply run_sound, bullet_inv in Hrun.
  destruct Hrun as (_ & ws' & sp' & txt' & HB' & H1 & H2).
  unfold captured. rewrite H1, H2.
  eexists. split; [reflexivity|]. simpl.
  destruct HB as (E & Hws & _). destruct HB' as (E' & Hws' & _).
  rewrite E in E'.
  rewrite (@space_prefix_unique ws ws' _ _ Hws Hws' E'). reflexivity.
Qed.

Lemma lineToNode_other line :
  ~ matchesBullet line -> lineToNode line = None.
Proof.
  intros Hn. unfold lineToNode. rewrite exec_bullet.
  destruct (run bullet_re 0 line) as [mt|] eqn:E; [|reflexivity].
  exfalso. apply Hn. apply run_sound, bullet_inv in E.
  destruct E as (_ & ws & sp & txt & HB & _). exists ws, sp, txt. exact HB.
Qed.

Lemma lineToNode_some line node :
  lineToNode line = Some node ->
  exists ws sp txt, BulletLine line ws sp txt
                    /\ level node = Z.of_nat (length ws / 2).
Proof.
  unfold lineToNode. rewrite exec_bullet.
  destruct (run bullet_re 0 line) as [mt|] eqn:E; [|discriminate].
  apply run_sound, bullet_inv in E.
  destruct E as (_ & ws & sp & txt & HB & H1 & H2).
  intros H. inversion H; subst; clear H. unfold captured. rewrite H1.
  exists ws, sp, txt. split; [exact HB | reflexivity].
Qed.

Lemma lineToNode_none line : lineToNode line = None -> ~ matchesBullet line.
Proof.
  intros H (ws & sp & txt & HB).
  destruct (lineToNode_bullet HB) as (node & Hn & _). congruence.
Qed.

Lemma collectNodes_Imports lines : Imports lines (collectNodes lines).
Proof.
  induction lines as [|line tl IH]; simpl; [constructor|].
  destruct (lineToNode line) as [node|] eqn:E.
  - apply lineToNode_some in E. destruct E as (ws & sp & txt & HB & Hl).
    eapply Imports_bullet; eauto.
  - apply Imports_drop; [apply lineToNode_none; exact E | exact IH].
Qed.

Lemma Imports_none lines nodes :
  Imports lines nodes ->
  Forall (fun line => ~ matchesBullet line) lines -> nodes = [].
Proof.
  induction 1 as [|line ws sp txt n lines nodes HB Hl Hi IH|line lines nodes Hn Hi IH];
    intros HF.
  - reflexivity.
  - inversion HF; subst. exfalso. apply H1. exists ws, sp, txt. exact HB.
  - inversion HF; subst. apply IH. assumption.
Qed.

End ImportFacts.

Module ImportClaims.
Import Regex Transcoder Spec RegexFacts ImportFacts.

(** C8: [fromMarkdown] makes one node of each line that matches the bullet
    pattern, at level floor(length of the leading whitespace / 2), drops
    every other line, and gives the single empty level-0 node when no line
    matches. *)
Theorem C8_fromMarkdown_lines :
  forall markdown,
    (exists nodes,
        Imports (JS.split LF markdown) nodes
        /\ fromMarkdown markdown
           = match nodes with [] => [Node 0 []] | _ :: _ => nodes end)
    /\ (Forall (fun line => ~ matchesBullet line) (JS.split LF markdown) ->
        fromMarkdown markdown = [Node 0 []])
    /\ (forall line ws sp txt,
           BulletLine line ws sp txt ->
           exists node, lineToNode line = Some node
                        /\ level node = Z.of_nat (length ws / 2))
    /\ (forall line, ~ matchesBullet line -> lineToNode line = None).
Proof.
  intros markdown. split; [|split; [|split]].
  - exists (collectNodes (JS.split LF markdown)).
    split; [apply collectNodes_Imports|].
    unfold fromMarkdown. destruct (collectNodes _); reflexivity.
  - intros HF. unfold fromMarkdown.
    rewrite (Imports_none (collectNodes_Imports _) HF). reflexivity.
  - intros line ws sp txt HB. exact (lineToNode_bullet HB).
  - intros line Hn. exact (lineToNode_other Hn).
Qed.

End ImportClaims.

(* ================================================================== *)
(** * Export followed by import *)
(* ================================================================== *)

Module RoundTripFacts.
Import Regex Transcoder Spec RegexFacts ExportFacts ImportFacts.

(** ** Splitting the joined lines *)

Lemma split_no_sep sep x :
  Forall (fun c => c <> sep) x -> JS.split sep x = [x].
Proof.
  induction 1 as [|c x Hc Hx IH]; simpl; [reflexivity|].
  destruct (N.eqb_spec c sep); [contradiction|]. rewrite IH. reflexivity.
Qed.

Lemma split_app_sep sep x r :
  Forall (fun c => c <> sep) x ->
  JS.split sep (x ++ sep :: r) = x :: JS.split sep r.
Proof.
  induction 1 as [|c x Hc Hx IH]; simpl.
  - rewrite N.eqb_refl. reflexivity.
  - destruct (N.eqb_spec c sep); [contradiction|]. rewrite IH. reflexivity.
Qed.

Lemma split_join sep lines :
  lines <> [] ->
  Forall (Forall (fun c => c <> sep)) lines ->
  JS.split sep (join sep lines) = lines.
Proof.
  intros Hne H. induction H as [|x tl Hx Htl IH]; [congruence|].
  destruct tl as [|y tl'].
  - simpl. apply split_no_sep. exact Hx.
  - change (join sep (x :: y :: tl')) with (x ++ sep :: join sep (y :: tl')).
    rewrite (split_app_sep _ Hx), IH; [reflexivity | discriminate].
Qed.

(** ** Classifying a segment *)

Lemma freeOf_Forall bad t :
  freeOf bad t = true -> Forall (fun c => bad c = false) t.
Proof.
  unfold freeOf. intros H. apply Forall_forall. intros c Hc.
  rewrite forallb_forall in H. apply H in Hc.
  destruct (bad c); [discriminate | reflexivity].
Qed.

Lemma startsWith_app p s : startsWith (p ++ s) p = true.
Proof.
  induction p as [|x p IH]; simpl; [reflexivity|].
  rewrite N.eqb_refl, IH. reflexivity.
Qed.

Lemma startsWith_cons c s x p :
  startsWith (c :: s) (x :: p) = N.eqb x c && startsWith s p.
Proof. reflexivity. Qed.

Lemma startsWith_head_neq c s x p :
  N.eqb x c = false -> startsWith (c :: s) (x :: p) = false.
Proof. intros H. rewrite startsWith_cons, H. reflexivity. Qed.

Lemma endsWith_app p s : endsWith (s ++ p) p = true.
Proof. unfold endsWith. rewrite rev_app_distr. apply startsWith_app. Qed.

Lemma slice_mid a t b :
  b <> [] ->
  slice (a ++ t ++ b) (Z.of_nat (length a)) (- Z.of_nat (length b)) = t.
Proof.
  intros Hb. unfold slice, rel_index. rewrite !length_app.
  assert (0 < length b) by (destruct b; simpl; [congruence | lia]).
  destruct (Z.ltb_spec (Z.of_nat (length a)) 0); [lia|].
  destruct (Z.ltb_spec (- Z.of_nat (length b)) 0); [|lia].
  replace (Z.to_nat (Z.min _ _)) with (length a) by lia.
  replace (Z.to_nat _) with (length t) by lia.
  rewrite skipn_app, skipn_all, Nat.sub_diag. simpl.
  rewrite firstn_app, firstn_all, Nat.sub_diag. simpl.
  apply app_nil_r.
Qed.

Lemma segment_plain piece :
  plainText piece -> segmentToInline (Some piece) = pieceInline piece.
Proof.
  intros H. destruct piece as [|c tl]; [reflexivity|].
  inversion H as [|? ? [Hs Hb] Htl]; subst.
  unfold isStar, isBacktick in *. rewrite N.eqb_sym in Hs, Hb.
  unfold segmentToInline.
  change (lit "**") with [STAR; STAR]. change (lit "*") with [STAR].
  change (lit "`") with [BACKTICK].
  rewrite !(fun p => @startsWith_head_neq c tl STAR p Hs).
  rewrite (fun p => @startsWith_head_neq c tl BACKTICK p Hb).
  reflexivity.
Qed.

Lemma segment_bold t :
  segmentToInline (Some (wrapMark t Bold)) = [Text t [Bold]].
Proof.
  unfold segmentToInline, wrapMark.
  rewrite startsWith_app.
  rewrite (app_assoc (lit "**") t (lit "**")), endsWith_app.
  rewrite <- app_assoc.
  assert (E : slice (lit "**" ++ t ++ lit "**") 2 (-2) = t)
    by exact (@slice_mid (lit "**") t (lit "**") ltac:(discriminate)).
  rewrite E. reflexivity.
Qed.

Lemma segment_italic c t :
  isStar c = false ->
  segmentToInline (Some (wrapMark (c :: t) Italic)) = [Text (c :: t) [Italic]].
Proof.
  intros Hc. unfold segmentToInline, wrapMark.
  assert (E0 : startsWith (lit "*" ++ (c :: t) ++ lit "*") (lit "**") = false).
  { unfold isStar in Hc. rewrite N.eqb_sym in Hc.
    change (startsWith (STAR :: (c :: t) ++ lit "*") [STAR; STAR] = false).
    rewrite startsWith_cons. cbn [app].
    rewrite startsWith_cons, Hc. apply andb_false_r. }
  rewrite E0. cbn [andb].
  rewrite startsWith_app.
  rewrite (app_assoc (lit "*") (c :: t) (lit "*")), endsWith_app.
  rewrite <- app_assoc.
  assert (E : slice (lit "*" ++ (c :: t) ++ lit "*") 1 (-1) = (c :: t))
    by exact (@slice_mid (lit "*") (c :: t) (lit "*") ltac:(discriminate)).
  rewrite E. reflexivity.
Qed.

Lemma segment_code t :
  segmentToInline (Some (wrapMark t Code)) = [Text t [Code]].
Proof.
  unfold segmentToInline, wrapMark.
  assert (E1 : forall s, startsWith (lit "`" ++ s) (lit "**") = false)
    by reflexivity.
  assert (E2 : forall s, startsWith (lit "`" ++ s) (lit "*") = false)
    by reflexivity.
  rewrite E1, E2. cbn [andb].
  rewrite startsWith_app.
  rewrite (app_assoc (lit "`") t (lit "`")), endsWith_app.
  rewrite <- app_assoc.
  assert (E : slice (lit "`" ++ t ++ lit "`") 1 (-1) = t)
    by exact (@slice_mid (lit "`") t (lit "`") ltac:(discriminate)).
  rewrite E. reflexivity.
Qed.


(** ** The separator pattern on exported runs *)

Lemma run_span_plain q c s :
  isStar c = false -> isBacktick c = false -> run span_re q (c :: s) = None.
Proof.
  unfold isStar, isBacktick. intros Hs Hb.
  unfold run, span_re. cbn [m rest pos caps]. rewrite Hs, Hb. reflexivity.
Qed.

Lemma span_result q w s n :
  n = q + length w ->
  set_cap 1 (MState q (w ++ s) []) (MState n s [])
  = MState (q + length w) s [(1, w)].
Proof.
  intros ->. unfold set_cap. cbn [pos rest caps].
  replace (q + length w - q) with (length w) by lia.
  rewrite firstn_app, firstn_all, Nat.sub_diag. simpl.
  rewrite app_nil_r. reflexivity.
Qed.

Lemma run_span_bold q c t s :
  Forall (fun x => is_not STAR x = true) (c :: t) ->
  run span_re q (wrapMark (c :: t) Bold ++ s)
  = Some (MState (q + length (wrapMark (c :: t) Bold)) s
                 [(1, wrapMark (c :: t) Bold)]).
Proof.
  intros H. inversion H as [|? ? Hc Ht]; subst.
  rewrite <- span_result with (n := S (S (S (S (S q)) + length t)))
    by (unfold wrapMark; simpl; rewrite !length_app; simpl; lia).
  assert (Hin : wrapMark (c :: t) Bold ++ s
                = STAR :: STAR :: c :: t ++ STAR :: STAR :: s).
  { unfold wrapMark. simpl. rewrite <- app_assoc. reflexivity. }
  rewrite Hin.
  unfold run, span_re. cbn [m rest pos caps]. rewrite !N.eqb_refl, Hc.
  erewrite star_greedy; [ | exact Ht | reflexivity
                        | cbn [m rest pos caps]; rewrite !N.eqb_refl; reflexivity ].
  reflexivity.
Qed.

Lemma run_span_italic q c t s :
  Forall (fun x => is_not STAR x = true) (c :: t) ->
  run span_re q (wrapMark (c :: t) Italic ++ s)
  = Some (MState (q + length (wrapMark (c :: t) Italic)) s
                 [(1, wrapMark (c :: t) Italic)]).
Proof.
  intros H. inversion H as [|? ? Hc Ht]; subst.
  rewrite <- span_result with (n := S (S (S q) + length t))
    by (unfold wrapMark; simpl; rewrite !length_app; simpl; lia).
  assert (Hin : wrapMark (c :: t) Italic ++ s = STAR :: c :: t ++ STAR :: s).
  { unfold wrapMark. simpl. rewrite <- app_assoc. reflexivity. }
  rewrite Hin.
  assert (Hc' : N.eqb c STAR = false)
    by (unfold is_not in Hc; destruct (N.eqb c STAR); [discriminate|reflexivity]).
  unfold run, span_re. cbn [m rest pos caps]. rewrite !N.eqb_refl, Hc', Hc.
  erewrite star_greedy; [ | exact Ht | reflexivity
                        | cbn [m rest pos caps]; rewrite !N.eqb_refl; reflexivity ].
  reflexivity.
Qed.

Lemma run_span_code q c t s :
  Forall (fun x => is_not BACKTICK x = true) (c :: t) ->
  run span_re q (wrapMark (c :: t) Code ++ s)
  = Some (MState (q + length (wrapMark (c :: t) Code)) s
                 [(1, wrapMark (c :: t) Code)]).
Proof.
  intros H. inversion H as [|? ? Hc Ht]; subst.
  rewrite <- span_result with (n := S (S (S q) + length t))
    by (unfold wrapMark; simpl; rewrite !length_app; simpl; lia).
  assert (Hin : wrapMark (c :: t) Code ++ s
                = BACKTICK :: c :: t ++ BACKTICK :: s).
  { unfold wrapMark. simpl. rewrite <- app_assoc. reflexivity. }
  rewrite Hin.
  unfold run, span_re. cbn [m rest pos caps].
  change (N.eqb BACKTICK STAR) with false. cbv iota.
  rewrite !N.eqb_refl, Hc.
  erewrite star_greedy; [ | exact Ht | reflexivity
                        | cbn [m rest pos caps]; rewrite !N.eqb_refl; reflexivity ].
  reflexivity.
Qed.

(** ** The split loop on an exported content *)

Lemma split_loop_plain t : forall fuel q piece s,
  plainText t ->
  split_loop (length t + fuel) span_re 1 q piece (t ++ s)
  = split_loop fuel span_re 1 (q + length t) (piece ++ t) s.
Proof.
  induction t as [|c t IH]; intros fuel q piece s Ht; simpl.
  - rewrite Nat.add_0_r, app_nil_r. reflexivity.
  - inversion Ht as [|? ? [Hs Hb] Ht']; subst.
    rewrite (@run_span_plain q c (t ++ s) Hs Hb).
    rewrite IH by assumption. rewrite <- app_assoc. simpl.
    rewrite Nat.add_succ_r. reflexivity.
Qed.

Lemma split_loop_span fuel q (piece w s : jsstring) :
  0 < length w ->
  run span_re q (w ++ s) = Some (MState (q + length w) s [(1, w)]) ->
  split_loop (S fuel) span_re 1 q piece (w ++ s)
  = Some piece :: Some w :: split_loop fuel span_re 1 (q + length w) [] s.
Proof.
  intros Hw Hrun. destruct w as [|c0 w0]; [simpl in Hw; lia|].
  cbn [split_loop app].
  change (c0 :: w0 ++ s) with ((c0 :: w0) ++ s). rewrite Hrun.
  cbn [pos rest].
  destruct (Nat.eqb_spec (q + length (c0 :: w0)) (q - length piece)) as [E|E].
  - simpl in E. lia.
  - reflexivity.
Qed.

Lemma freeOf_star_not t :
  freeOf isStar t = true -> Forall (fun x => is_not STAR x = true) t.
Proof.
  intros H. apply freeOf_Forall in H. eapply Forall_impl; [|exact H].
  intros c Hc. unfold is_not. unfold isStar in Hc. rewrite Hc. reflexivity.
Qed.

Lemma freeOf_backtick_not t :
  freeOf isBacktick t = true -> Forall (fun x => is_not BACKTICK x = true) t.
Proof.
  intros H. apply freeOf_Forall in H. eapply Forall_impl; [|exact H].
  intros c Hc. unfold is_not. unfold isBacktick in Hc. rewrite Hc. reflexivity.
Qed.

Lemma freeOf_plainText t :
  freeOf isStar t = true -> freeOf isBacktick t = true -> plainText t.
Proof.
  intros H1 H2. apply freeOf_Forall in H1. apply freeOf_Forall in H2.
  unfold plainText. rewrite Forall_forall in *. intros c Hc. auto.
Qed.

Lemma renderInline_cons c cs :
  renderInline (c :: cs) = renderRun c ++ renderInline cs.
Proof. reflexivity. Qed.

Lemma parse_loop cs : forall fuel q piece,
  forallb runReadsBack cs = true ->
  noAdjacentPlain cs = true ->
  plainText piece ->
  (piece <> [] -> match cs with c :: _ => isPlain c = false | [] => True end) ->
  2 * length (renderInline cs) + 1 <= fuel ->
  flat_map segmentToInline
    (split_loop fuel span_re 1 q piece (renderInline cs))
  = pieceInline piece ++ cs.
Proof.
  induction cs as [|c tl IH]; intros fuel q piece Hok Hadj Hp Hfirst Hfuel.
  - destruct fuel as [|f]; [simpl in Hfuel; lia|].
    change (renderInline []) with (@nil char).
    cbn [split_loop flat_map]. rewrite (segment_plain Hp). reflexivity.
  - cbn [forallb] in Hok. apply andb_prop in Hok. destruct Hok as [Hc Htl].
    cbn [noAdjacentPlain] in Hadj. apply andb_prop in Hadj.
    destruct Hadj as [Hnext Hadj].
    rewrite renderInline_cons in *. rewrite length_app in Hfuel.
    destruct c as [t ms|]; [|discriminate].
    destruct ms as [|mk [|mk2 ms]].
    + (* an unmarked run: scanned into the piece *)
      destruct piece as [|p0 piece];
        [|specialize (Hfirst ltac:(discriminate)); discriminate].
      cbn [runReadsBack] in Hc.
      apply andb_prop in Hc. destruct Hc as [Hc Hbt].
      apply andb_prop in Hc. destruct Hc as [Hc Hst].
      apply andb_prop in Hc. destruct Hc as [Hne Hlt].
      cbn [renderRun fold_left] in *.
      replace fuel with (length t + (fuel - length t)) by lia.
      rewrite split_loop_plain by (apply freeOf_plainText; assumption).
      cbn [app].
      rewrite IH; try assumption.
      * destruct t; [discriminate | reflexivity].
      * apply freeOf_plainText; assumption.
      * intros _. destruct tl as [|c2 tl']; [exact I|].
        cbn [isPlain] in Hnext. destruct (isPlain c2); [discriminate|reflexivity].
      * lia.
    + (* a run with one mark: a separator *)
      destruct fuel as [|f]; [lia|].
      destruct t as [|c0 t0]; [destruct mk; discriminate|].
      assert (Hrun : rendered mk = true /\
                run span_re q (wrapMark (c0 :: t0) mk ++ renderInline tl)
                = Some (MState (q + length (wrapMark (c0 :: t0) mk))
                               (renderInline tl)
                               [(1, wrapMark (c0 :: t0) mk)])
                /\ segmentToInline (Some (wrapMark (c0 :: t0) mk))
                   = [Text (c0 :: t0) [mk]]).
      { destruct mk; try discriminate; cbn [runReadsBack] in Hc;
          apply andb_prop in Hc; destruct Hc as [Hc Hfree];
          (split; [reflexivity|]); split.
        - apply run_span_bold, freeOf_star_not, Hfree.
        - apply segment_bold.
        - apply run_span_italic, freeOf_star_not, Hfree.
        - apply segment_italic. cbn [freeOf forallb] in Hfree.
          apply andb_prop in Hfree. destruct Hfree as [H0 _].
          destruct (isStar c0); [discriminate|reflexivity].
        - apply run_span_code, freeOf_backtick_not, Hfree.
        - apply segment_code. }
      destruct Hrun as (Hmk & Hrun & Hseg).
      cbn [renderRun fold_left] in *.
      assert (Hlen : 0 < length (wrapMark (c0 :: t0) mk))
        by (destruct mk; try discriminate; simpl; lia).
      rewrite (@split_loop_span f q piece _ (renderInline tl) Hlen Hrun).
      cbn [flat_map]. rewrite (segment_plain Hp), Hseg.
      rewrite IH; try assumption.
      * reflexivity.
      * constructor.
      * intros E; congruence.
      * simpl in Hfuel |- *. lia.
    + destruct mk; discriminate.
Qed.

Lemma runReadsBack_inv c :
  runReadsBack c = true ->
  exists t ms, c = Text t ms /\ nonEmpty t = true
               /\ freeOf is_line_terminator t = true
               /\ (ms = [] \/ ms = [Bold] \/ ms = [Italic] \/ ms = [Code]).
Proof.
  destruct c as [t ms|]; [|discriminate]. intros H. exists t, ms.
  destruct ms as [|mk [|mk2 ms]]; [|destruct mk; try discriminate|
                                   destruct mk; discriminate];
    cbn [runReadsBack] in H; repeat (apply andb_prop in H; destruct H as [H ?]);
    repeat split; auto.
Qed.

Lemma parse_render cs :
  forallb runReadsBack cs = true ->
  noAdjacentPlain cs = true ->
  parseTextWithMarks (renderInline cs) = cs.
Proof.
  intros Hok Hadj. unfold parseTextWithMarks.
  destruct (renderInline cs) as [|x text] eqn:E.
  - destruct cs as [|c tl]; [reflexivity|]. exfalso.
    cbn [forallb] in Hok. apply andb_prop in Hok. destruct Hok as [Hc _].
    apply runReadsBack_inv in Hc.
    destruct Hc as (t & ms & -> & Hne & _ & Hms).
    rewrite renderInline_cons in E. apply app_eq_nil in E. destruct E as [E _].
    destruct t; [discriminate|].
    destruct Hms as [-> | [-> | [-> | ->]]]; discriminate E.
  - rewrite <- E. unfold split_re.
    rewrite parse_loop; try assumption.
    + reflexivity.
    + constructor.
    + intros H; congruence.
    + lia.
Qed.

(** ** The exported line of a node *)

Lemma renderRun_dots c :
  runReadsBack c = true -> Forall (fun x => is_dot x = true) (renderRun c).
Proof.
  intros H. apply runReadsBack_inv in H.
  destruct H as (t & ms & -> & _ & Hlt & Hms).
  assert (Ht : Forall (fun x => is_dot x = true) t).
  { apply freeOf_Forall in Hlt. eapply Forall_impl; [|exact Hlt].
    intros x Hx. unfold is_dot. rewrite Hx. reflexivity. }
  destruct Hms as [-> | [-> | [-> | ->]]]; cbn [renderRun fold_left wrapMark];
    repeat (apply Forall_app; split); try exact Ht;
    repeat constructor.
Qed.

Lemma renderInline_dots cs :
  forallb runReadsBack cs = true ->
  Forall (fun x => is_dot x = true) (renderInline cs).
Proof.
  induction cs as [|c tl IH]; intros H; [constructor|].
  cbn [forallb] in H. apply andb_prop in H. destruct H as [Hc Htl].
  rewrite renderInline_cons. apply Forall_app. split.
  - apply renderRun_dots; assumption.
  - apply IH; assumption.
Qed.

Lemma renderInline_head cs :
  forallb runReadsBack cs = true ->
  startsClean cs = true ->
  match renderInline cs with
  | [] => True
  | x :: _ => is_space x = false
  end.
Proof.
  intros Hok Hs. destruct cs as [|c tl]; [exact I|].
  cbn [forallb] in Hok. apply andb_prop in Hok. destruct Hok as [Hc _].
  apply runReadsBack_inv in Hc. destruct Hc as (t & ms & -> & Hne & _ & Hms).
  rewrite renderInline_cons.
  destruct Hms as [-> | [-> | [-> | ->]]]; cbn [renderRun fold_left wrapMark];
    try reflexivity.
  destruct t as [|x t]; [discriminate|]. simpl in Hs |- *.
  destruct (is_space x); [discriminate|reflexivity].
Qed.

Lemma lineToNode_single_space line ws txt :
  BulletLine line ws [SPACE] txt ->
  match txt with [] => True | x :: _ => is_space x = false end ->
  lineToNode line
  = Some (Node (Z.of_nat (length ws / 2)) (parseTextWithMarks txt)).
Proof.
  intros HB Hhead. destruct (bullet_intro HB) as [res0 Hm].
  destruct (run_complete Hm) as [res Hrun].
  unfold lineToNode. rewrite exec_bullet, Hrun.
  apply run_sound, bullet_inv in Hrun.
  destruct Hrun as (_ & ws' & sp' & txt' & HB' & H1 & H2).
  unfold captured. rewrite H1, H2.
  destruct HB as (E & Hws & _).
  destruct HB' as (E' & Hws' & Hne' & Hsp' & _).
  rewrite E in E'.
  pose proof (@space_prefix_unique ws ws' _ _ Hws Hws' E') as <-.
  apply app_inv_head in E'. injection E' as E'.
  destruct sp' as [|c sp'']; [congruence|].
  injection E' as _ E'.
  destruct sp'' as [|x sp''].
  - simpl in E'. subst txt'. reflexivity.
  - exfalso. subst txt. inversion Hsp' as [|? ? _ Hsp'']; subst.
    inversion Hsp'' as [|? ? Hx _]; subst. simpl in Hhead. congruence.
Qed.

Lemma repeat_spaces k :
  Forall (fun c => is_space c = true) (List.repeat SPACE k).
Proof. induction k; simpl; constructor; [reflexivity | assumption]. Qed.

Lemma lineToNode_exportLine n :
  nodeReadsBack n = true -> lineToNode (exportLine n) = Some n.
Proof.
  unfold nodeReadsBack. intros H.
  apply andb_prop in H. destruct H as [H Hclean].
  apply andb_prop in H. destruct H as [H Hadj].
  apply andb_prop in H. destruct H as [Hlev Hok].
  apply Z.leb_le in Hlev.
  rewrite (@lineToNode_single_space (exportLine n)
             (List.repeat SPACE (2 * Z.to_nat (level n)))
             (renderInline (content n))).
  - rewrite repeat_length, Nat.mul_comm, Nat.div_mul by discriminate.
    rewrite Z2Nat.id by assumption.
    rewrite parse_render by assumption. destruct n; reflexivity.
  - unfold BulletLine. split; [reflexivity|].
    split; [apply repeat_spaces|]. split; [discriminate|].
    split; [repeat constructor|]. apply renderInline_dots; assumption.
  - apply renderInline_head; assumption.
Qed.

Lemma collectNodes_exportLine d :
  forallb nodeReadsBack d = true -> collectNodes (map exportLine d) = d.
Proof.
  induction d as [|n tl IH]; intros H; [reflexivity|].
  cbn [forallb] in H. apply andb_prop in H. destruct H as [Hn Htl].
  cbn [map collectNodes]. rewrite (lineToNode_exportLine n Hn), IH by assumption.
  reflexivity.
Qed.

Lemma exportLine_no_LF n :
  nodeReadsBack n = true -> Forall (fun c => c <> LF) (exportLine n).
Proof.
  unfold nodeReadsBack. intros H.
  apply andb_prop in H. destruct H as [H _].
  apply andb_prop in H. destruct H as [H _].
  apply andb_prop in H. destruct H as [_ Hok].
  unfold exportLine. apply Forall_app. split.
  - apply Forall_forall. intros c Hc. apply repeat_spec in Hc. subst.
    discriminate.
  - apply Forall_app. split; [repeat constructor; discriminate|].
    eapply Forall_impl; [|apply renderInline_dots; exact Hok].
    intros c Hc E. subst c. discriminate Hc.
Qed.

Lemma levels_of_readsBack d :
  forallb nodeReadsBack d = true -> Forall (fun n => (0 <= level n)%Z) d.
Proof.
  intros H. apply Forall_forall. intros n Hn.
  rewrite forallb_forall in H. apply H in Hn. unfold nodeReadsBack in Hn.
  repeat (apply andb_prop in Hn; destruct Hn as [Hn _]).
  apply Z.leb_le. exact Hn.
Qed.

End RoundTripFacts.

Module RoundTripClaims.
Import Regex Transcoder Spec ExportFacts RoundTripFacts.

(** C1 (as the code has it): the import of the export of a document is the
    document when the document is not empty, its levels are not negative,
    and every node's content is made of text runs with non-empty text free
    of line terminators, each unmarked and free of stars and backticks, or
    bold or italic and free of stars, or code and free of backticks, no two
    unmarked runs being adjacent and an unmarked first run not beginning
    with whitespace. *)
Theorem C1_round_trip_of_supported_documents :
  forall d,
    d <> [] ->
    forallb nodeReadsBack d = true ->
    roundTrips d.
Proof.
  intros d Hne Hok. exists (join LF (map exportLine d)). split.
  - apply toMarkdown_exportLine, levels_of_readsBack, Hok.
  - unfold fromMarkdown. rewrite split_join.
    + rewrite (collectNodes_exportLine d Hok).
      destruct d; [congruence|reflexivity].
    + destruct d; [congruence|discriminate].
    + apply Forall_forall. intros line Hl. apply in_map_iff in Hl.
      destruct Hl as (n & <- & Hn). apply exportLine_no_LF.
      rewrite forallb_forall in Hok. apply Hok. exact Hn.
Qed.

Lemma C1_round_trip_of_supported_documents_witness :
  let d := [Node 0 [Text (lit "Plan ") []; Text (lit "now") [Bold]];
            Node 1 [Text (lit "x`y") [Italic]; Text (lit " then ") [];
                    Text (lit "a*b") [Code]];
            Node 3 []] in
  d <> []
  /\ forallb nodeReadsBack d = true
  /\ roundTrips d.
Proof.
  intros d.
  assert (Hne : d <> []) by discriminate.
  assert (Hok : forallb nodeReadsBack d = true) by reflexivity.
  split; [exact Hne|]. split; [exact Hok|].
  exact (C1_round_trip_of_supported_documents Hne Hok).
Defined.

(** C1, as stated, fails: a run whose single mark is a link loses the mark,
    and an unmarked run whose text has stars comes back as three runs; both
    documents have one mark per run at most and levels that are multiples
    of the indent unit. *)
Lemma C1_counterexample :
  let d1 := [Node 0 [Text (lit "a") [Link (lit "u")]]] in
  let d2 := [Node 1 [Text (lit "2*3*4") []]] in
  (atMostOneMark d1 /\ Forall (fun n => (0 <= level n)%Z) d1
   /\ toMarkdown d1 = Some (lit "- a")
   /\ fromMarkdown (lit "- a") = [Node 0 [Text (lit "a") []]]
   /\ ~ roundTrips d1)
  /\ (atMostOneMark d2 /\ Forall (fun n => (0 <= level n)%Z) d2
      /\ toMarkdown d2 = Some (lit "  - 2*3*4")
      /\ fromMarkdown (lit "  - 2*3*4")
         = [Node 1 [Text (lit "2") []; Text (lit "3") [Italic];
                    Text (lit "4") []]]
      /\ ~ roundTrips d2)
  /\ ~ (forall d, atMostOneMark d -> Forall (fun n => (0 <= level n)%Z) d ->
                  roundTrips d).
Proof.
  intros d1 d2.
  assert (H1 : atMostOneMark d1) by (repeat constructor).
  assert (L1 : Forall (fun n => (0 <= level n)%Z) d1)
    by (repeat constructor; simpl; lia).
  assert (N1 : ~ roundTrips d1).
  { intros (md & Hmd & Hback).
    assert (E : md = lit "- a") by (vm_compute in Hmd; inversion Hmd; reflexivity).
    subst md. vm_compute in Hback. discriminate Hback. }
  assert (H2 : atMostOneMark d2) by (repeat constructor).
  assert (L2 : Forall (fun n => (0 <= level n)%Z) d2)
    by (repeat constructor; simpl; lia).
  assert (N2 : ~ roundTrips d2).
  { intros (md & Hmd & Hback).
    assert (E : md = lit "  - 2*3*4") by (vm_compute in Hmd; inversion Hmd; reflexivity).
    subst md. vm_compute in Hback. discriminate Hback. }
  split; [|split].
  - repeat split; try assumption; reflexivity.
  - repeat split; try assumption; reflexivity.
  - intros H. exact (N1 (H d1 H1 L1)).
Qed.

End RoundTripClaims.

(* ================================================================== *)
(** * More properties of the export *)
(* ================================================================== *)

Module MoreExportFacts.
Import Regex Transcoder Spec MoreSpec ExportFacts.

Lemma nodeLine_None n : nodeLine n = None <-> (level n < 0)%Z.
Proof.
  unfold nodeLine, JS.repeat. rewrite levelOr0_id.
  destruct (Z.ltb_spec (level n) 0); split; intros H0;
    try reflexivity; try assumption; try discriminate; lia.
Qed.

Lemma nodeLines_None d :
  nodeLines d = None <-> Exists (fun n => (level n < 0)%Z) d.
Proof.
  induction d as [|n tl IH]; simpl.
  - split; [discriminate | intros H; inversion H].
  - destruct (nodeLine n) as [l|] eqn:E.
    + destruct (nodeLines tl) as [ls|] eqn:E2.
      * split; [discriminate|]. intros H. inversion H; subst.
        -- apply nodeLine_None in H1. congruence.
        -- apply IH in H1. discriminate.
      * split; [|reflexivity]. intros _. apply Exists_cons_tl.
        apply IH. reflexivity.
    + split; [|reflexivity]. intros _. apply Exists_cons_hd.
      apply nodeLine_None. exact E.
Qed.

Lemma nodeLines_app d1 d2 l1 l2 :
  nodeLines d1 = Some l1 -> nodeLines d2 = Some l2 ->
  nodeLines (d1 ++ d2) = Some (l1 ++ l2).
Proof.
  revert l1. induction d1 as [|n tl IH]; intros l1 H1 H2; simpl in *.
  - inversion H1; subst. exact H2.
  - destruct (nodeLine n) as [l|]; [|discriminate].
    destruct (nodeLines tl) as [ls|]; [|discriminate].
    inversion H1; subst. rewrite (IH ls eq_refl H2). reflexivity.
Qed.

Lemma nodeLines_length d : forall ls,
  nodeLines d = Some ls -> length ls = length d.
Proof.
  induction d as [|n tl IH]; intros ls H; simpl in *.
  - inversion H; reflexivity.
  - destruct (nodeLine n); [|discriminate].
    destruct (nodeLines tl) as [l2|]; [|discriminate].
    inversion H; subst. simpl. rewrite (IH l2 eq_refl). reflexivity.
Qed.

Lemma join_app sep (l1 l2 : list jsstring) :
  l1 <> [] -> l2 <> [] ->
  join sep (l1 ++ l2) = join sep l1 ++ sep :: join sep l2.
Proof.
  intros H1 H2. induction l1 as [|x tl IH]; [congruence|].
  destruct tl as [|y tl'].
  - simpl. destruct l2; [congruence | reflexivity].
  - change (join sep ((x :: y :: tl') ++ l2))
      with (x ++ sep :: join sep ((y :: tl') ++ l2)).
    rewrite IH by discriminate.
    change (join sep (x :: y :: tl')) with (x ++ sep :: join sep (y :: tl')).
    rewrite <- app_assoc. reflexivity.
Qed.

Lemma renderInline_textOnly cs :
  renderInline (filter isText cs) = renderInline cs.
Proof.
  unfold renderInline. induction cs as [|c tl IH]; [reflexivity|].
  destruct c; simpl; rewrite IH; reflexivity.
Qed.

Lemma nodeLine_textOnly n : nodeLine (textOnly n) = nodeLine n.
Proof.
  unfold nodeLine. rewrite !nodeToText_renderInline. simpl.
  rewrite renderInline_textOnly. reflexivity.
Qed.

End MoreExportFacts.

Module MoreExport.
Import Regex Transcoder Spec MoreSpec ExportFacts MoreExportFacts.

(** X1: the export throws (the RangeError of [repeat]) exactly when some
    node of the document has a negative level. *)
Theorem X1_toMarkdown_throws_iff_negative_level :
  forall d, toMarkdown d = None <-> Exists (fun n => (level n < 0)%Z) d.
Proof.
  intros d. rewrite <- nodeLines_None. unfold toMarkdown.
  destruct (nodeLines d); split; congruence.
Qed.

(** X2: inline children that are not text (hard breaks) leave no trace in
    the export: a document exports as the document without them. *)
Theorem X2_export_ignores_non_text_children :
  forall d, toMarkdown (map textOnly d) = toMarkdown d.
Proof.
  intros d.
  assert (H : nodeLines (map textOnly d) = nodeLines d).
  { induction d as [|n tl IH]; [reflexivity|].
    simpl. rewrite nodeLine_textOnly, IH. reflexivity. }
  unfold toMarkdown. rewrite H. reflexivity.
Qed.

(** X3: the export of two documents put one after the other is the two
    exports with a newline between them (both documents having nodes). *)
Theorem X3_export_of_concatenation :
  forall d1 d2 a b,
    d1 <> [] -> d2 <> [] ->
    toMarkdown d1 = Some a -> toMarkdown d2 = Some b ->
    toMarkdown (d1 ++ d2) = Some (a ++ LF :: b).
Proof.
  intros d1 d2 a b N1 N2 H1 H2. unfold toMarkdown in *.
  destruct (nodeLines d1) as [l1|] eqn:E1; [|discriminate].
  destruct (nodeLines d2) as [l2|] eqn:E2; [|discriminate].
  inversion H1; inversion H2; subst.
  rewrite (nodeLines_app _ _ E1 E2).
  rewrite join_app; [reflexivity| |].
  - intros ->. apply nodeLines_length in E1. destruct d1; [congruence|discriminate].
  - intros ->. apply nodeLines_length in E2. destruct d2; [congruence|discriminate].
Qed.

Lemma X3_export_of_concatenation_witness :
  let d1 := [Node 0 [Text (lit "a") [Bold]]; Node 1 []] in
  let d2 := [Node 2 [Text (lit "b") []]] in
  let a := lit "- **a**" ++ LF :: lit "  - " in
  let b := lit "    - b" in
  d1 <> [] /\ d2 <> []
  /\ toMarkdown d1 = Some a /\ toMarkdown d2 = Some b
  /\ toMarkdown (d1 ++ d2) = Some (a ++ LF :: b).
Proof.
  intros d1 d2 a b.
  assert (N1 : d1 <> []) by discriminate.
  assert (N2 : d2 <> []) by discriminate.
  assert (H1 : toMarkdown d1 = Some a) by reflexivity.
  assert (H2 : toMarkdown d2 = Some b) by reflexivity.
  split; [exact N1|]. split; [exact N2|]. split; [exact H1|].
  split; [exact H2|].
  exact (X3_export_of_concatenation N1 N2 H1 H2).
Defined.

End MoreExport.

(* ================================================================== *)
(** * More properties of the import *)
(* ================================================================== *)

Module MoreImportFacts.
Import Regex Transcoder Spec MoreSpec RegexFacts ExportFacts ImportFacts
       RoundTripFacts.

Lemma segmentToInline_imported seg :
  Forall importedRun (segmentToInline seg).
Proof.
  unfold segmentToInline. destruct seg as [[|c s]|]; try constructor.
  destruct (_ && _); [repeat constructor|].
  destruct (_ && _); [repeat constructor|].
  destruct (_ && _); repeat constructor.
Qed.

Lemma Forall_flat_map (A B : Type) (P : B -> Prop) (f : A -> list B) l :
  (forall x, Forall P (f x)) -> Forall P (flat_map f l).
Proof.
  intros H. induction l as [|x tl IH]; simpl; [constructor|].
  apply Forall_app. split; [apply H | exact IH].
Qed.

Lemma parseTextWithMarks_imported text :
  Forall importedRun (parseTextWithMarks text).
Proof.
  unfold parseTextWithMarks. destruct text; [constructor|].
  apply Forall_flat_map. apply segmentToInline_imported.
Qed.

Lemma lineToNode_imported line n :
  lineToNode line = Some n -> importedNode n.
Proof.
  unfold lineToNode. destruct (exec bullet_re line); [|discriminate].
  intros H. inversion H; subst. split; simpl.
  - apply Nat2Z.is_nonneg.
  - apply parseTextWithMarks_imported.
Qed.

Lemma collectNodes_imported lines :
  Forall importedNode (collectNodes lines).
Proof.
  induction lines as [|l tl IH]; simpl; [constructor|].
  destruct (lineToNode l) eqn:E; [|exact IH].
  constructor; [eapply lineToNode_imported; eauto | exact IH].
Qed.

Lemma fromMarkdown_imported markdown :
  fromMarkdown markdown <> [] /\ Forall importedNode (fromMarkdown markdown).
Proof.
  unfold fromMarkdown.
  pose proof (collectNodes_imported (JS.split LF markdown)) as H.
  destruct (collectNodes _) as [|n tl].
  - split; [discriminate|]. repeat constructor. simpl. lia.
  - split; [discriminate | exact H].
Qed.

(** ** Lines *)

Lemma split_nonempty sep s : JS.split sep s <> [].
Proof.
  destruct s as [|c tl]; simpl; [discriminate|].
  destruct (N.eqb c sep); [discriminate|].
  destruct (JS.split sep tl); discriminate.
Qed.

Lemma split_app sep a b :
  JS.split sep (a ++ sep :: b) = JS.split sep a ++ JS.split sep b.
Proof.
  induction a as [|c a IH]; simpl.
  - rewrite N.eqb_refl. reflexivity.
  - destruct (N.eqb c sep); [rewrite IH; reflexivity|].
    rewrite IH. pose proof (split_nonempty sep a) as Hne.
    destruct (JS.split sep a); [congruence | reflexivity].
Qed.

Lemma collectNodes_app l1 l2 :
  collectNodes (l1 ++ l2) = collectNodes l1 ++ collectNodes l2.
Proof.
  induction l1 as [|l tl IH]; simpl; [reflexivity|].
  destruct (lineToNode l); rewrite IH; reflexivity.
Qed.

Lemma collectNodes_nil lines :
  collectNodes lines = [] <-> ~ Exists matchesBullet lines.
Proof.
  induction lines as [|l tl IH]; simpl.
  - split; [intros _ H; inversion H | reflexivity].
  - destruct (lineToNode l) as [n|] eqn:E.
    + split; [discriminate|]. intros H. exfalso. apply H.
      apply Exists_cons_hd. apply lineToNode_some in E.
      destruct E as (ws & sp & txt & HB & _). exists ws, sp, txt. exact HB.
    + rewrite IH. apply lineToNode_none in E. split; intros H H1.
      * inversion H1; subst; contradiction.
      * apply H. apply Exists_cons_tl. exact H1.
Qed.

Lemma fromMarkdown_collect markdown :
  collectNodes (JS.split LF markdown) <> [] ->
  fromMarkdown markdown = collectNodes (JS.split LF markdown).
Proof.
  unfold fromMarkdown. destruct (collectNodes _); [congruence|reflexivity].
Qed.

Lemma parseTextWithMarks_plain text :
  text <> [] -> plainText text -> parseTextWithMarks text = [Text text []].
Proof.
  intros Hne Hp. destruct text as [|c tl]; [congruence|].
  unfold parseTextWithMarks, split_re. cbv iota.
  remember (c :: tl) as text eqn:E.
  replace (2 * length text + 1) with (length text + (length text + 1)) by lia.
  assert (Hs : split_loop (length text + (length text + 1)) span_re 1 0 [] text
               = split_loop (length text + 1) span_re 1 (0 + length text)
                            ([] ++ text) []).
  { rewrite <- (app_nil_r text) at 3. apply split_loop_plain. exact Hp. }
  rewrite Hs, Nat.add_1_r. cbn [split_loop flat_map app].
  rewrite (segment_plain Hp). subst text. reflexivity.
Qed.

End MoreImportFacts.

Module MoreImport.
Import Regex Transcoder Spec MoreSpec RegexFacts ExportFacts ImportFacts
       RoundTripFacts MoreImportFacts.

(** X4: whatever the input, the import gives a document with at least one
    node, levels that are not negative, and contents made of text runs that
    are unmarked or carry exactly one of bold, italic and code: it never
    makes a link, a run with two marks or a hard break. *)
Theorem X4_import_shape :
  forall markdown,
    fromMarkdown markdown <> []
    /\ Forall (fun n => (0 <= level n)%Z /\ Forall importedRun (content n))
              (fromMarkdown markdown).
Proof. intros markdown. apply fromMarkdown_imported. Qed.

(** X5: the export of an imported document never throws, and gives one
    line per imported node. *)
Theorem X5_export_of_import_defined :
  forall markdown,
    toMarkdown (fromMarkdown markdown)
    = Some (join LF (map exportLine (fromMarkdown markdown))).
Proof.
  intros markdown. apply toMarkdown_exportLine.
  destruct (fromMarkdown_imported markdown) as [_ H].
  eapply Forall_impl; [|exact H]. intros n [Hn _]. exact Hn.
Qed.

(** X6: the import of two markdown texts joined by a newline is the two
    imports one after the other, when each text has a bullet line. *)
Theorem X6_import_of_concatenation :
  forall a b,
    hasBullet a -> hasBullet b ->
    fromMarkdown (a ++ LF :: b) = fromMarkdown a ++ fromMarkdown b.
Proof.
  unfold hasBullet. intros a b Ha Hb.
  assert (Na : collectNodes (JS.split LF a) <> [])
    by (intros E; apply collectNodes_nil in E; contradiction).
  assert (Nb : collectNodes (JS.split LF b) <> [])
    by (intros E; apply collectNodes_nil in E; contradiction).
  rewrite (fromMarkdown_collect a Na), (fromMarkdown_collect b Nb).
  rewrite fromMarkdown_collect; rewrite split_app, collectNodes_app.
  - reflexivity.
  - intros E. apply app_eq_nil in E. destruct E; contradiction.
Qed.

Lemma X6_import_of_concatenation_witness :
  let a := lit "# title" ++ LF :: lit "- one" in
  let b := lit "   - *two*" in
  hasBullet a /\ hasBullet b
  /\ fromMarkdown (a ++ LF :: b) = fromMarkdown a ++ fromMarkdown b.
Proof.
  intros a b.
  assert (Ha : hasBullet a).
  { apply Exists_cons_tl, Exists_cons_hd.
    exists [], [SPACE], (lit "one"). unfold BulletLine.
    repeat split; try discriminate; repeat constructor. }
  assert (Hb : hasBullet b).
  { apply Exists_cons_hd.
    exists (lit "   "), [SPACE], (lit "*two*"). unfold BulletLine.
    repeat split; try discriminate; repeat constructor. }
  split; [exact Ha|]. split; [exact Hb|].
  exact (X6_import_of_concatenation Ha Hb).
Defined.

(** X7: text without a bullet line is invisible to the import: put before
    or after any markdown, a newline between, it does not change the
    document imported. *)
Theorem X7_import_ignores_text_without_bullets :
  forall junk markdown,
    ~ hasBullet junk ->
    fromMarkdown (junk ++ LF :: markdown) = fromMarkdown markdown
    /\ fromMarkdown (markdown ++ LF :: junk) = fromMarkdown markdown.
Proof.
  unfold hasBullet. intros junk markdown Hj.
  apply collectNodes_nil in Hj.
  unfold fromMarkdown.
  rewrite !split_app, !collectNodes_app, Hj, app_nil_r. simpl.
  split; reflexivity.
Qed.

Lemma X7_import_ignores_text_without_bullets_witness :
  let junk := lit "Notes:" ++ LF :: lit "-no space" in
  let markdown := lit "- a" in
  ~ hasBullet junk
  /\ fromMarkdown (junk ++ LF :: markdown) = fromMarkdown markdown
  /\ fromMarkdown (markdown ++ LF :: junk) = fromMarkdown markdown.
Proof.
  intros junk markdown.
  assert (Hj : ~ hasBullet junk).
  { apply collectNodes_nil. reflexivity. }
  split; [exact Hj|].
  exact (X7_import_ignores_text_without_bullets markdown Hj).
Defined.

(** X8: a bullet line of plain text (no star, no backtick, no line
    terminator, not starting with whitespace) under [k] spaces imports as
    one node at level floor(k/2) holding that text as one unmarked run:
    the level is not capped at 10 and an odd space is dropped. *)
Theorem X8_plain_bullet_line_imports_verbatim :
  forall k text,
    plainText text ->
    Forall (fun c => is_dot c = true) text ->
    match text with [] => False | c :: _ => is_space c = false end ->
    fromMarkdown (List.repeat SPACE k ++ lit "- " ++ text)
    = [Node (Z.of_nat (k / 2)) [Text text []]].
Proof.
  intros k text Hp Hd Hh.
  assert (Hne : text <> []) by (destruct text; [contradiction|discriminate]).
  unfold fromMarkdown. rewrite split_no_sep.
  - cbn [collectNodes].
    rewrite (@lineToNode_single_space _ (List.repeat SPACE k) text).
    + rewrite repeat_length, (parseTextWithMarks_plain Hne Hp). reflexivity.
    + unfold BulletLine. split; [reflexivity|].
      split; [apply repeat_spaces|]. split; [discriminate|].
      split; [repeat constructor | exact Hd].
    + destruct text; [contradiction | exact Hh].
  - apply Forall_app. split.
    + apply Forall_forall. intros c Hc. apply repeat_spec in Hc. subst.
      discriminate.
    + apply Forall_app. split; [repeat constructor; discriminate|].
      eapply Forall_impl; [|exact Hd]. intros c Hc E. subst c.
      discriminate Hc.
Qed.

Lemma X8_plain_bullet_line_imports_verbatim_witness :
  let text := lit "deep down" in
  plainText text
  /\ Forall (fun c => is_dot c = true) text
  /\ match text with [] => False | c :: _ => is_space c = false end
  /\ fromMarkdown (List.repeat SPACE 25 ++ lit "- " ++ text)
     = [Node (Z.of_nat (25 / 2)) [Text text []]].
Proof.
  intros text.
  assert (Hp : plainText text) by (repeat constructor).
  assert (Hd : Forall (fun c => is_dot c = true) text) by (repeat constructor).
  assert (Hh : match text with [] => False | c :: _ => is_space c = false end)
    by reflexivity.
  split; [exact Hp|]. split; [exact Hd|]. split; [exact Hh|].
  exact (X8_plain_bullet_line_imports_verbatim 25 Hp Hd Hh).
Defined.

End MoreImport.

(* ================================================================== *)
(** * What the inline parser keeps *)
(* ================================================================== *)

Module InlineFacts.
Import Regex Transcoder Spec MoreSpec RegexFacts ExportFacts ImportFacts
       RoundTripFacts EditorFacts.

(** A match of the separator pattern captures exactly what it consumed. *)
Lemma run_span_capture q s st :
  run span_re q s = Some st ->
  exists w, s = w ++ rest st /\ group st 1 = Some w.
Proof.
  intros H. apply run_sound in H. unfold span_re in H.
  apply Matches_group_inv in H. destruct H as (st' & Hm & ->).
  apply Matches_suffix in Hm. destruct Hm as (w & Hr & Hp). simpl in *.
  exists w. split; [exact Hr|].
  unfold group, set_cap. simpl. rewrite Hp.
  replace (q + length w - q) with (length w) by lia.
  rewrite Hr at 1.
  rewrite firstn_app, firstn_all, Nat.sub_diag. simpl.
  rewrite app_nil_r. reflexivity.
Qed.

(** The segments of the split, put together, are the text. *)
Lemma split_loop_concat : forall fuel q (piece s : jsstring),
  concat (map segmentText (split_loop fuel span_re 1 q piece s)) = piece ++ s.
Proof.
  induction fuel as [|f IH]; intros q piece s; cbn [split_loop].
  - simpl. apply app_nil_r.
  - destruct s as [|c tl]; [simpl; rewrite !app_nil_r; reflexivity|].
    destruct (run span_re q (c :: tl)) as [st|] eqn:E.
    + destruct (Nat.eqb (pos st) (q - length piece)).
      * rewrite IH, <- app_assoc. reflexivity.
      * apply run_span_capture in E. destruct E as (w & Hs & Hg).
        cbn [seq map app concat]. rewrite Hg, IH. cbn [segmentText app].
        rewrite Hs. reflexivity.
    + rewrite IH, <- app_assoc. reflexivity.
Qed.

Lemma startsWith_split (p : jsstring) : forall s,
  startsWith s p = true -> s = p ++ skipn (length p) s.
Proof.
  induction p as [|x p IH]; intros s H; [reflexivity|].
  destruct s as [|y s]; [discriminate|].
  rewrite startsWith_cons in H. apply andb_prop in H. destruct H as [Hxy Hs].
  apply N.eqb_eq in Hxy. subst y. simpl. f_equal. apply IH. exact Hs.
Qed.

Lemma endsWith_split (p s : jsstring) :
  endsWith s p = true -> s = firstn (length s - length p) s ++ p.
Proof.
  unfold endsWith. intros H. apply startsWith_split in H.
  rewrite length_rev in H.
  assert (E : s = rev (skipn (length p) (rev s)) ++ p).
  { rewrite <- (rev_involutive s) at 1. rewrite H at 1.
    rewrite rev_app_distr, rev_involutive. reflexivity. }
  clear H. revert E. generalize (rev (skipn (length p) (rev s))) as u.
  intros u E. subst s.
  rewrite length_app, Nat.add_sub, firstn_app, firstn_all, Nat.sub_diag.
  simpl. rewrite app_nil_r. reflexivity.
Qed.

Lemma filter_delimiters p : allDelimiters p -> filter notDelimiter p = [].
Proof.
  induction 1 as [|c p Hc Hp IH]; simpl; [reflexivity|].
  rewrite Hc. exact IH.
Qed.

(** Cutting a prefix and a suffix made of delimiters off a segment, as
    [slice] does (also when the two overlap), removes delimiters only. *)
Lemma slice_keeps_plain (seg p p' : jsstring) :
  startsWith seg p = true -> endsWith seg p' = true ->
  allDelimiters p -> allDelimiters p' -> p' <> [] ->
  filter notDelimiter (slice seg (Z.of_nat (length p)) (- Z.of_nat (length p')))
  = filter notDelimiter seg.
Proof.
  intros Hs He Hp Hp' Hne.
  apply startsWith_split in Hs. apply endsWith_split in He.
  remember (skipn (length p) seg) as r eqn:Er.
  remember (firstn (length seg - length p') seg) as x eqn:Ex.
  clear Er Ex.
  assert (Hlen : length seg = length p + length r)
    by (rewrite Hs; apply length_app).
  assert (Hlen' : length seg = length x + length p')
    by (rewrite He; apply length_app).
  assert (Hb : 0 < length p') by (destruct p'; simpl; [congruence|lia]).
  assert (Hsk : forall k, skipn (length p + k) seg = skipn k r).
  { intros k. rewrite Hs, skipn_app, skipn_all2 by lia.
    replace (length p + k - length p) with k by lia. reflexivity. }
  unfold slice, rel_index.
  destruct (Z.ltb_spec (Z.of_nat (length p)) 0); [lia|].
  destruct (Z.ltb_spec (- Z.of_nat (length p')) 0); [|lia].
  replace (Z.to_nat (Z.min _ _)) with (length p + 0) by lia.
  replace (Z.to_nat _) with (length r - length p') by lia.
  rewrite Hsk. cbn [skipn].
  assert (Hd : allDelimiters (skipn (length r - length p') r)).
  { rewrite <- Hsk, He, skipn_app, skipn_all2 by lia. simpl.
    apply (Forall_firstn_skipn _ Hp'). }
  rewrite Hs, filter_app, (filter_delimiters Hp). simpl.
  transitivity (filter notDelimiter
                  (firstn (length r - length p') r
                   ++ skipn (length r - length p') r));
    [|rewrite firstn_skipn; reflexivity].
  rewrite filter_app, (filter_delimiters Hd), app_nil_r. reflexivity.
Qed.

Lemma segment_keeps_plain seg :
  plainChars (segmentToInline seg) = filter notDelimiter (segmentText seg).
Proof.
  unfold plainChars, segmentToInline.
  destruct seg as [[|c s]|]; try reflexivity.
  set (sg := c :: s).
  assert (D2 : allDelimiters (lit "**")) by (repeat constructor).
  assert (D1 : allDelimiters (lit "*")) by (repeat constructor).
  assert (D0 : allDelimiters (lit "`")) by (repeat constructor).
  destruct (startsWith sg (lit "**")) eqn:S2;
    [destruct (endsWith sg (lit "**")) eqn:E2|]; cbn [andb].
  - simpl. rewrite app_nil_r.
    exact (@slice_keeps_plain sg (lit "**") (lit "**") S2 E2 D2 D2
             ltac:(discriminate)).
  - destruct (startsWith sg (lit "*")) eqn:S1;
      [destruct (endsWith sg (lit "*")) eqn:E1|]; cbn [andb].
    + simpl. rewrite app_nil_r.
      exact (@slice_keeps_plain sg (lit "*") (lit "*") S1 E1 D1 D1
               ltac:(discriminate)).
    + destruct (startsWith sg (lit "`") && endsWith sg (lit "`")) eqn:S0.
      * apply andb_prop in S0. destruct S0 as [S0 E0].
        simpl. rewrite app_nil_r.
        exact (@slice_keeps_plain sg (lit "`") (lit "`") S0 E0 D0 D0
                 ltac:(discriminate)).
      * simpl. rewrite app_nil_r. reflexivity.
    + destruct (startsWith sg (lit "`") && endsWith sg (lit "`")) eqn:S0.
      * apply andb_prop in S0. destruct S0 as [S0 E0].
        simpl. rewrite app_nil_r.
        exact (@slice_keeps_plain sg (lit "`") (lit "`") S0 E0 D0 D0
                 ltac:(discriminate)).
      * simpl. rewrite app_nil_r. reflexivity.
  - destruct (startsWith sg (lit "*")) eqn:S1;
      [destruct (endsWith sg (lit "*")) eqn:E1|]; cbn [andb].
    + simpl. rewrite app_nil_r.
      exact (@slice_keeps_plain sg (lit "*") (lit "*") S1 E1 D1 D1
               ltac:(discriminate)).
    + destruct (startsWith sg (lit "`") && endsWith sg (lit "`")) eqn:S0.
      * apply andb_prop in S0. destruct S0 as [S0 E0].
        simpl. rewrite app_nil_r.
        exact (@slice_keeps_plain sg (lit "`") (lit "`") S0 E0 D0 D0
                 ltac:(discriminate)).
      * simpl. rewrite app_nil_r. reflexivity.
    + destruct (startsWith sg (lit "`") && endsWith sg (lit "`")) eqn:S0.
      * apply andb_prop in S0. destruct S0 as [S0 E0].
        simpl. rewrite app_nil_r.
        exact (@slice_keeps_plain sg (lit "`") (lit "`") S0 E0 D0 D0
                 ltac:(discriminate)).
      * simpl. rewrite app_nil_r. reflexivity.
Qed.

Lemma plainChars_app cs1 cs2 :
  plainChars (cs1 ++ cs2) = plainChars cs1 ++ plainChars cs2.
Proof.
  unfold plainChars. rewrite map_app, concat_app, filter_app. reflexivity.
Qed.

Lemma segments_keep_plain segs :
  plainChars (flat_map segmentToInline segs)
  = filter notDelimiter (concat (map segmentText segs)).
Proof.
  induction segs as [|seg tl IH]; [reflexivity|].
  cbn [flat_map map concat].
  rewrite plainChars_app, filter_app, segment_keeps_plain, IH. reflexivity.
Qed.

End InlineFacts.

Module MoreInline.
Import Regex Transcoder Spec MoreSpec InlineFacts.

(** X9: the inline parser loses and invents no character other than stars
    and backticks: the texts of the runs it makes, read in order without
    stars and backticks, are the text it was given without stars and
    backticks. *)
Theorem X9_inline_parser_keeps_plain_characters :
  forall text,
    plainChars (parseTextWithMarks text) = filter notDelimiter text.
Proof.
  intros text. unfold parseTextWithMarks.
  destruct text as [|c tl]; [reflexivity|].
  rewrite segments_keep_plain. unfold split_re.
  rewrite split_loop_concat. reflexivity.
Qed.

End MoreInline.

(* ================================================================== *)
(** * More properties of the structural commands *)
(* ================================================================== *)

Unset Implicit Arguments.

Module MoreEditorFacts.
Import Editor Spec MoreSpec EditorFacts.

Lemma nth_error_lt (d : Doc) i n : nth_error d i = Some n -> i < length d.
Proof. intros H. apply nth_error_Some. congruence. Qed.

(** The node a position falls into. *)
Lemma resolve_at d k x p :
  nth_error d k = Some x ->
  posOf d k < p < posOf d k + nodeSize x ->
  resolve d p = InNode k (posOf d k) x (p - posOf d k - 1).
Proof.
  intros Hn Hp. pose proof (nth_error_lt _ _ _ Hn) as Hk.
  unfold resolve. rewrite <- (firstn_skipn_middle _ _ Hn) at 1.
  rewrite resolve_from_mid; rewrite posOf_firstn; [|simpl; lia].
  rewrite length_firstn. simpl. f_equal. lia.
Qed.




Lemma setLevel_spec d i n l :
  nth_error d i = Some n ->
  setLevel d i l = firstn i d ++ Node l (content n) :: skipn (S i) d.
Proof. intros H. unfold setLevel. rewrite H. reflexivity. Qed.

Lemma setLevel_same d i n :
  nth_error d i = Some n -> setLevel d i (level n) = d.
Proof.
  intros H. rewrite (setLevel_spec _ _ _ _ H).
  replace (Node (level n) (content n)) with n by (destruct n; reflexivity).
  apply firstn_skipn_middle. exact H.
Qed.



Lemma tokens_length cs : length (tokens cs) = contentSize cs.
Proof.
  unfold tokens. induction cs as [|c tl IH]; [reflexivity|].
  simpl. rewrite length_app, IH. destruct c; simpl; [|reflexivity].
  rewrite length_map. reflexivity.
Qed.


Lemma docTokens_app d1 d2 : docTokens (d1 ++ d2) = docTokens d1 ++ docTokens d2.
Proof. unfold docTokens. apply flat_map_app. Qed.

Lemma docTokens_setLevel d i l : docTokens (setLevel d i l) = docTokens d.
Proof.
  unfold setLevel. destruct (nth_error d i) as [n|] eqn:E; [|reflexivity].
  transitivity (docTokens (firstn i d ++ n :: skipn (S i) d));
    [|rewrite (firstn_skipn_middle _ _ E); reflexivity].
  rewrite !docTokens_app. reflexivity.
Qed.

End MoreEditorFacts.

Module MoreEditor.
Import Editor Spec MoreSpec EditorFacts MoreEditorFacts.







End MoreEditor.

(* ================================================================== *)
(** * The split, for every selection *)
(* ================================================================== *)

Module SplitFacts.
Import Editor Spec MoreSpec EditorFacts MoreEditorFacts.

(** ** The document after a split *)

Section AfterSplit.
Variables (d : Doc) (j : nat) (n n1 n2 : OutlineNode).
Hypothesis Hn : nth_error d j = Some n.

Lemma split_len : length (firstn j d) = j.
Proof. pose proof (nth_error_lt _ _ _ Hn). rewrite length_firstn. lia. Qed.

Lemma split_length :
  length (firstn j d ++ n1 :: n2 :: skipn (S j) d) = S (length d).
Proof.
  pose proof (nth_error_lt _ _ _ Hn).
  rewrite length_app, split_len. cbn [length]. rewrite length_skipn. lia.
Qed.

Lemma split_nth_before k :
  k < j ->
  nth_error (firstn j d ++ n1 :: n2 :: skipn (S j) d) k = nth_error d k.
Proof.
  intros Hk. rewrite nth_error_app1 by (rewrite split_len; lia).
  rewrite nth_error_firstn. destruct (Nat.ltb_spec k j); [reflexivity|lia].
Qed.

Lemma split_nth_first :
  nth_error (firstn j d ++ n1 :: n2 :: skipn (S j) d) j = Some n1.
Proof.
  rewrite nth_error_app2 by (rewrite split_len; lia).
  rewrite split_len, Nat.sub_diag. reflexivity.
Qed.

Lemma split_nth_second :
  nth_error (firstn j d ++ n1 :: n2 :: skipn (S j) d) (S j) = Some n2.
Proof.
  rewrite nth_error_app2 by (rewrite split_len; lia).
  rewrite split_len. replace (S j - j) with 1 by lia. reflexivity.
Qed.

Lemma split_pos_before k :
  k <= j -> posOf (firstn j d ++ n1 :: n2 :: skipn (S j) d) k = posOf d k.
Proof.
  intros Hk. rewrite <- !posOf_firstn. f_equal.
  rewrite firstn_app, split_len.
  replace (k - j) with 0 by lia. cbn [firstn]. rewrite app_nil_r.
  rewrite firstn_firstn. f_equal. lia.
Qed.

Lemma split_pos_second :
  posOf (firstn j d ++ n1 :: n2 :: skipn (S j) d) (S j)
  = posOf d j + nodeSize n1.
Proof.
  rewrite <- !posOf_firstn.
  rewrite firstn_app, split_len, firstn_all2 by (rewrite split_len; lia).
  replace (S j - j) with 1 by lia. cbn [firstn].
  rewrite docSize_app. simpl. lia.
Qed.

Lemma split_tokens :
  tokens (content n1) ++ tokens (content n2) = tokens (content n) ->
  docTokens (firstn j d ++ n1 :: n2 :: skipn (S j) d) = docTokens d.
Proof.
  intros Ht. transitivity (docTokens (firstn j d ++ n :: skipn (S j) d));
    [|rewrite (firstn_skipn_middle _ _ Hn); reflexivity].
  rewrite !docTokens_app. f_equal.
  change (docTokens (n1 :: n2 :: skipn (S j) d))
    with (tokens (content n1) ++ tokens (content n2)
            ++ docTokens (skipn (S j) d)).
  rewrite app_assoc, Ht. reflexivity.
Qed.

End AfterSplit.

(** Nodes come in the order of their positions. *)
Lemma posOf_mono (d : Doc) : forall j i nj,
  nth_error d j = Some nj -> j < i -> posOf d j + nodeSize nj <= posOf d i.
Proof.
  induction d as [|x tl IH]; intros j i nj Hn Hlt.
  - destruct j; discriminate.
  - destruct i as [|i]; [lia|]. destruct j as [|j]; cbn [posOf].
    + inversion Hn; subst. lia.
    + cbn [nth_error] in Hn. pose proof (IH _ i _ Hn ltac:(lia)). lia.
Qed.

(** Where the start of the selection is after the split at its end. *)
Lemma mapped_from a h :
  Nat.min (mapInsert (Nat.max a h) 2 a) (mapInsert (Nat.max a h) 2 h)
  = if Nat.min a h <? Nat.max a h then Nat.min a h else Nat.max a h + 2.
Proof.
  unfold mapInsert.
  destruct (Nat.ltb_spec a (Nat.max a h));
    destruct (Nat.ltb_spec h (Nat.max a h));
    destruct (Nat.ltb_spec (Nat.min a h) (Nat.max a h)); lia.
Qed.

(** What [Enter] does when it applies, whatever the selection. *)
Lemma Enter_applied st st' evs :
  Enter st = Some (true, st', evs) ->
  exists j b n off bf af,
    resolve (doc st) (sel_to st) = InNode j b n off
    /\ cut (content n) off = (bf, af)
    /\ doc st' = firstn j (doc st)
                 ++ Node (level n) bf :: Node (level n) af
                 :: skipn (S j) (doc st)
    /\ exists pos, evs = [NodeCreated pos].
Proof.
  intros H. unfold Enter in H.
  destruct (resolve (doc st) (sel_from st)) as [i bi ni offi|] eqn:Ei;
    [|discriminate].
  unfold tr_split in H.
  destruct (resolve (doc st) (sel_to st)) as [j bj nj offj|] eqn:Ej;
    [|discriminate].
  destruct (cut (content nj) offj) as [bf af] eqn:Ec.
  cbn [doc] in H. unfold sel_from at 1 in H. cbn [anchor head] in H.
  unfold sel_to in H. rewrite mapped_from in H.
  fold (sel_from st) in H. fold (sel_to st) in H.
  set (d1 := firstn j (doc st) ++ Node (level nj) bf :: Node (level nj) af
               :: skipn (S j) (doc st)) in *.
  pose proof (resolve_inv _ _ Ei) as (Hni & Hbi & Hri & _ & _).
  pose proof (resolve_inv _ _ Ej) as (Hnj & Hbj & Hrj & Hoj & _).
  assert (Hsz : contentSize bf = offj).
  { apply (@cut_size _ _ _ _ Ec). unfold nodeSize in Hrj. lia. }
  assert (Hle : sel_from st <= sel_to st)
    by (unfold sel_from, sel_to; lia).
  assert (Hlev : exists k bk nk offk,
             resolve d1 (if sel_from st <? sel_to st then sel_from st
                         else sel_to st + 2) = InNode k bk nk offk
             /\ level nk = level ni).
  { destruct (Nat.ltb_spec (sel_from st) (sel_to st)) as [Hlt|Hge].
    - assert (Hij : i <= j).
      { destruct (Nat.le_gt_cases i j) as [|Hgt]; [assumption|].
        pose proof (posOf_mono _ _ _ _ Hnj Hgt). lia. }
      destruct (Nat.eq_dec i j) as [->|Hne].
      + assert (ni = nj) by congruence. subst ni.
        exists j, (posOf d1 j), (Node (level nj) bf),
               (sel_from st - posOf d1 j - 1).
        split; [|reflexivity].
        apply resolve_at; [apply (split_nth_first _ _ _ _ _ Hnj)|].
        unfold d1. rewrite (split_pos_before _ _ _ _ _ Hnj) by lia.
        unfold nodeSize. cbn [content]. lia.
      + exists i, (posOf d1 i), ni, (sel_from st - posOf d1 i - 1).
        split; [|reflexivity].
        apply resolve_at.
        * unfold d1. rewrite (split_nth_before _ _ _ _ _ Hnj) by lia.
          exact Hni.
        * unfold d1. rewrite (split_pos_before _ _ _ _ _ Hnj) by lia. lia.
    - assert (Heq : sel_from st = sel_to st) by lia.
      rewrite Heq in Ei. rewrite Ei in Ej. inversion Ej; subst.
      exists (S j), (posOf d1 (S j)), (Node (level nj) af),
             (sel_to st + 2 - posOf d1 (S j) - 1).
      split; [|reflexivity].
      apply resolve_at; [apply (split_nth_second _ _ _ _ _ Hnj)|].
      unfold d1. rewrite (split_pos_second _ _ _ _ _ Hnj).
      unfold nodeSize. cbn [content]. lia. }
  destruct Hlev as (k & bk & nk & offk & Ek & Hlk).
  rewrite Ek in H. cbn [before] in H.
  unfold tr_setNodeMarkup in H. cbn [doc anchor head] in H.
  pose proof (resolve_inv _ _ Ek) as (Hnk & _ & _ & _ & Hxk).
  rewrite Hxk in H. rewrite levelOr0_id, <- Hlk in H.
  rewrite (setLevel_same _ _ _ Hnk) in H.
  inversion H; subst.
  exists j, (posOf (doc st) j), nj, (sel_to st - posOf (doc st) j - 1), bf, af.
  split; [reflexivity|]. split; [exact Ec|]. split; [reflexivity|].
  eexists; reflexivity.
Qed.


End SplitFacts.

Module MoreSplit.
Import Editor Spec MoreSpec EditorFacts MoreEditorFacts SplitFacts.

(** X13: when [Enter] applies, whatever the selection (a cursor or a
    range), the node holding the end of the selection is replaced by two
    nodes of its level whose contents are its content cut at that end; no
    token is lost (a selected range is not deleted), every other node
    stays, and one [node-created] event fires. *)
Theorem X13_enter_cuts_one_node_and_keeps_all_content :
  forall st st' evs,
    Enter st = Some (true, st', evs) ->
    exists j b n off bf af,
      resolve (doc st) (sel_to st) = InNode j b n off
      /\ doc st' = firstn j (doc st)
                   ++ Node (level n) bf :: Node (level n) af
                   :: skipn (S j) (doc st)
      /\ tokens bf ++ tokens af = tokens (content n)
      /\ length (tokens bf) = off
      /\ docTokens (doc st') = docTokens (doc st)
      /\ exists pos, evs = [NodeCreated pos].
Proof.
  intros st st' evs H. apply Enter_applied in H.
  destruct H as (j & b & n & off & bf & af & Hr & Hc & Hd & He).
  exists j, b, n, off, bf, af.
  pose proof (resolve_inv _ _ Hr) as (Hn & _ & Hrange & Hoff & _).
  pose proof (@cut_tokens _ _ _ _ Hc) as Ht.
  split; [exact Hr|]. split; [exact Hd|]. split; [exact Ht|]. split.
  - rewrite tokens_length. apply (@cut_size _ _ _ _ Hc).
    unfold nodeSize in Hrange. lia.
  - split; [|exact He]. rewrite Hd.
    apply (split_tokens _ _ _ _ _ Hn). exact Ht.
Qed.

Lemma X13_enter_cuts_one_node_and_keeps_all_content_witness :
  let st := State [Node 2 [Text (lit "ab") [Bold]; Text (lit "cd") []];
                   Node 0 [Text (lit "e") []]] 2 4 in
  let st' := State [Node 2 [Text (lit "ab") [Bold]; Text (lit "c") []];
                    Node 2 [Text (lit "d") []];
                    Node 0 [Text (lit "e") []]] 2 6 in
  let evs := [NodeCreated 0] in
  Enter st = Some (true, st', evs)
  /\ exists j b n off bf af,
      resolve (doc st) (sel_to st) = InNode j b n off
      /\ doc st' = firstn j (doc st)
                   ++ Node (level n) bf :: Node (level n) af
                   :: skipn (S j) (doc st)
      /\ tokens bf ++ tokens af = tokens (content n)
      /\ length (tokens bf) = off
      /\ docTokens (doc st') = docTokens (doc st)
      /\ exists pos, evs = [NodeCreated pos].
Proof.
  intros st st' evs.
  assert (H : Enter st = Some (true, st', evs)) by reflexivity.
  split; [exact H|].
  exact (X13_enter_cuts_one_node_and_keeps_all_content st st' evs H).
Defined.

End MoreSplit.

(* ================================================================== *)
(** * Backspace, node counts and the split undone *)
(* ================================================================== *)

Module MoreKeysFacts.
Import Editor Spec MoreSpec EditorFacts MoreEditorFacts SplitFacts.




Lemma tr_setNodeMarkup_doc tr p l tr' :
  tr_setNodeMarkup tr p l = Some tr' ->
  length (doc tr') = length (doc tr).
Proof.
  unfold tr_setNodeMarkup. destruct (indexAt (doc tr) p); [|discriminate].
  intros H. inversion H; subst. apply setLevel_length.
Qed.

Lemma Enter_not_applied st st' evs :
  Enter st = Some (false, st', evs) -> st' = st /\ evs = [].
Proof.
  unfold Enter. destruct (resolve (doc st) (sel_from st)).
  - destruct (tr_split st (sel_to st)); [|discriminate].
    match goal with
    | |- context [before ?r] => destruct (before r); [|discriminate]
    end.
    match goal with
    | |- context [tr_setNodeMarkup ?a ?b ?c] =>
        destruct (tr_setNodeMarkup a b c); discriminate
    end.
  - intros H. inversion H; subst. split; reflexivity.
Qed.

(** The number of nodes after a structural action. *)
Lemma act_count a st b st' evs :
  structural a = true -> act a st = Some (b, st', evs) ->
  length (doc st') = length (doc st) + length (filter isCreated evs).
Proof.
  intros Hs H. destruct a; cbn [act] in H; try discriminate.
  - destruct b.
    + apply Enter_applied in H.
      destruct H as (j & bj & n & off & bf & af & Hr & _ & Hd & pos & ->).
      pose proof (resolve_inv _ _ Hr) as (Hn & _).
      rewrite Hd, (split_length _ _ _ _ _ Hn). simpl. lia.
    + apply Enter_not_applied in H. destruct H as [-> ->]. simpl. lia.
  - unfold indent in H. destruct (resolve (doc st) (sel_from st)).
    + match type of H with
      | context [tr_setNodeMarkup ?x ?y ?z] =>
          destruct (tr_setNodeMarkup x y z) eqn:E; [|discriminate]
      end.
      inversion H; subst. rewrite (tr_setNodeMarkup_doc _ _ _ _ E).
      simpl. lia.
    + inversion H; subst. simpl. lia.
  - unfold unindent in H. destruct (resolve (doc st) (sel_from st)).
    + destruct (levelOr0 (level parent) =? 0)%Z.
      * inversion H; subst. simpl. lia.
      * match type of H with
        | context [tr_setNodeMarkup ?x ?y ?z] =>
            destruct (tr_setNodeMarkup x y z) eqn:E; [|discriminate]
        end.
        inversion H; subst. rewrite (tr_setNodeMarkup_doc _ _ _ _ E).
        simpl. lia.
    + inversion H; subst. simpl. lia.
  - inversion H; subst. simpl. lia.
Qed.

End MoreKeysFacts.

Module MoreKeys.
Import Editor Spec MoreSpec EditorFacts MoreEditorFacts SplitFacts
       MoreKeysFacts.


(** X15: in a session of [Enter], [Tab] and [Shift-Tab] presses and moves
    of the selection, the number of nodes grows by exactly the number of
    [node-created] events fired. *)
Theorem X15_node_count_follows_created_events :
  forall acts st st' evs,
    forallb structural acts = true ->
    session acts st = Some (st', evs) ->
    length (doc st') = length (doc st) + length (filter isCreated evs).
Proof.
  induction acts as [|a tl IH]; intros st st' evs Hs H.
  - inversion H; subst. simpl. lia.
  - cbn [forallb] in Hs. apply andb_prop in Hs. destruct Hs as [Ha Htl].
    cbn [session] in H.
    destruct (act a st) as [[[b st1] evs1]|] eqn:Ea; [|discriminate].
    destruct (session tl st1) as [[st2 evs2]|] eqn:Es; [|discriminate].
    inversion H; subst.
    rewrite (IH _ _ _ Htl Es), (act_count _ _ _ _ _ Ha Ea).
    rewrite filter_app, length_app. lia.
Qed.

Lemma X15_node_count_follows_created_events_witness :
  let acts := [PressEnter; PressTab; Select 4 4; PressEnter; PressShiftTab] in
  let st := State [Node 0 [Text (lit "ab") []]] 2 2 in
  exists st' evs,
    forallb structural acts = true
    /\ session acts st = Some (st', evs)
    /\ length (doc st') = length (doc st) + length (filter isCreated evs).
Proof.
  intros acts st.
  destruct (session acts st) as [[st' evs]|] eqn:E; [|discriminate E].
  exists st', evs.
  split; [reflexivity|]. split; [reflexivity|].
  exact (X15_node_count_follows_created_events acts st st' evs eq_refl E).
Defined.



End MoreKeys.

(* ================================================================== *)
(** * The level attribute *)
(* ================================================================== *)

Module AttributeFacts.
Import JS Attributes MoreSpec.

Lemma digit_not_space c :
  isDigit c = true -> is_space c = false /\ N.eqb c 45 = false
                      /\ N.eqb c 43 = false.
Proof.
  unfold isDigit. intros H. apply andb_prop in H. destruct H as [H1 H2].
  apply N.leb_le in H1. apply N.leb_le in H2.
  unfold is_space, existsb.
  repeat match goal with
         | |- context [N.eqb c ?k] => destruct (N.eqb_spec c k); [lia|]
         end.
  destruct (N.leb_spec 8192 c); [lia|]. repeat split.
Qed.

Lemma dropSpaces_pad pad s :
  Forall (fun c => is_space c = true) pad ->
  dropSpaces (pad ++ s) = dropSpaces s.
Proof.
  induction 1 as [|c tl Hc Htl IH]; [reflexivity|].
  cbn [app dropSpaces]. rewrite Hc. exact IH.
Qed.

Lemma digitPrefix_app ds rest :
  Forall (fun c => isDigit c = true) ds -> noDigitAhead rest ->
  digitPrefix (ds ++ rest) = ds.
Proof.
  intros Hd Hr. induction Hd as [|c tl Hc Htl IH].
  - destruct rest as [|c tl]; [reflexivity|]. cbn [app digitPrefix].
    cbn in Hr. rewrite Hr. reflexivity.
  - cbn [app digitPrefix]. rewrite Hc, IH. reflexivity.
Qed.

Lemma digitsValue_app ds c :
  digitsValue (ds ++ [c]) = (digitsValue ds * 10 + (c - 48))%N.
Proof. unfold digitsValue. rewrite fold_left_app. reflexivity. Qed.

Lemma digitsOf_digits f : forall n,
  Forall (fun c => isDigit c = true) (digitsOf f n).
Proof.
  induction f as [|f IH]; intros n; [constructor|].
  cbn [digitsOf]. apply Forall_app. split.
  - destruct (n <? 10)%N; [constructor | apply IH].
  - constructor; [|constructor]. unfold isDigit.
    pose proof (N.mod_upper_bound n 10 ltac:(lia)).
    remember (n mod 10)%N as r eqn:Er. clear Er.
    apply andb_true_intro. split; apply N.leb_le; lia.
Qed.

Lemma digitsOf_value f : forall n,
  (n < 10 ^ N.of_nat f)%N -> digitsValue (digitsOf f n) = n.
Proof.
  induction f as [|f IH]; intros n Hn.
  - cbn in Hn. cbn. lia.
  - cbn [digitsOf]. rewrite digitsValue_app.
    rewrite (N.add_comm 48), N.add_sub.
    destruct (N.ltb_spec n 10) as [Hlt|Hge].
    + rewrite N.mod_small by exact Hlt. reflexivity.
    + rewrite Nat2N.inj_succ, N.pow_succ_r' in Hn.
      rewrite IH by (apply N.Div0.div_lt_upper_bound; exact Hn).
      rewrite (N.div_mod n 10) at 3 by discriminate.
      rewrite N.mul_comm. reflexivity.
Qed.

Lemma size_nat_bound n : (n < 2 ^ N.of_nat (N.size_nat n))%N.
Proof.
  destruct n as [|p]; [cbn; lia|]. cbn [N.size_nat].
  induction p as [p IH|p IH|].
  - cbn [Pos.size_nat]. rewrite Nat2N.inj_succ, N.pow_succ_r'. lia.
  - cbn [Pos.size_nat]. rewrite Nat2N.inj_succ, N.pow_succ_r'. lia.
  - cbn. lia.
Qed.

Lemma numeralN_value n : digitsValue (numeralN n) = n.
Proof.
  unfold numeralN. apply digitsOf_value.
  pose proof (size_nat_bound n) as H.
  rewrite Nat2N.inj_succ, N.pow_succ_r'.
  assert (2 ^ N.of_nat (N.size_nat n) <= 10 ^ N.of_nat (N.size_nat n))%N
    by (apply N.pow_le_mono_l; lia).
  lia.
Qed.

Lemma numeralN_digits n : Forall (fun c => isDigit c = true) (numeralN n).
Proof. apply digitsOf_digits. Qed.

Lemma numeralN_head n : exists c tl, numeralN n = c :: tl /\ isDigit c = true.
Proof.
  pose proof (numeralN_digits n) as H.
  destruct (numeralN n) as [|c tl] eqn:E.
  - unfold numeralN in E. cbn [digitsOf] in E.
    apply (f_equal (@length _)) in E. rewrite length_app in E.
    cbn in E. lia.
  - exists c, tl. split; [reflexivity|]. inversion H; assumption.
Qed.

(** [parseInt] of digits, with something that is no digit behind. *)
Lemma parseInt10_digits sign0 n rest :
  noDigitAhead rest ->
  match digitPrefix (numeralN n ++ rest) with
  | [] => None
  | ds => Some (sign0 * Z.of_N (digitsValue ds))%Z
  end = Some (sign0 * Z.of_N n)%Z.
Proof.
  intros Hr. rewrite (digitPrefix_app _ _ (numeralN_digits n) Hr).
  destruct (numeralN_head n) as (c & tl & E & _).
  pose proof (numeralN_value n) as Hv. rewrite E in *. rewrite Hv.
  reflexivity.
Qed.

Lemma parseInt10_numeral z rest :
  noDigitAhead rest -> parseInt10 (numeral z ++ rest) = Some z.
Proof.
  intros Hr. unfold parseInt10, numeral.
  destruct (Z.ltb_spec z 0) as [Hneg|Hpos].
  - cbn [app dropSpaces].
    change (is_space 45%N) with false. cbv iota.
    change (N.eqb 45%N 45%N) with true. cbv iota.
    rewrite (parseInt10_digits (-1) (Z.abs_N z) rest Hr).
    f_equal. rewrite N2Z.inj_abs_N. lia.
  - destruct (numeralN_head (Z.abs_N z)) as (c & tl & E & Hc).
    pose proof (parseInt10_digits 1 (Z.abs_N z) rest Hr) as Hp.
    rewrite E in *. cbn [app dropSpaces] in *.
    destruct (digit_not_space _ Hc) as (Hs & H45 & H43).
    rewrite Hs, H45, H43. rewrite Hp.
    f_equal. rewrite N2Z.inj_abs_N. lia.
Qed.

End AttributeFacts.

Module MoreAttributes.
Import JS Attributes MoreSpec AttributeFacts.

(** X17: the [level] attribute reads back what was written: for an
    integer [z] in the range of exact doubles, [parseHTML] of a
    [data-level] holding the decimal numeral of [z] gives [z], also with
    white space before the numeral and anything but a digit after it. *)
Theorem X17_level_attribute_reads_its_numeral :
  forall pad z rest,
    Forall (fun c => is_space c = true) pad ->
    noDigitAhead rest ->
    (Z.abs z <= 2 ^ 53)%Z ->
    parseHTML (Some (pad ++ numeral z ++ rest)) = Some z.
Proof.
  intros pad z rest Hpad Hrest _.
  assert (Hp : parseInt10 (pad ++ numeral z ++ rest) = Some z).
  { pose proof (parseInt10_numeral z rest Hrest) as H.
    unfold parseInt10 in *. rewrite (dropSpaces_pad _ _ Hpad). exact H. }
  unfold parseHTML. destruct (pad ++ numeral z ++ rest) eqn:E; [|exact Hp].
  discriminate Hp.
Qed.

Lemma X17_level_attribute_reads_its_numeral_witness :
  Forall (fun c => is_space c = true) (lit " ")
  /\ noDigitAhead (lit "px")
  /\ (Z.abs (-12) <= 2 ^ 53)%Z
  /\ parseHTML (Some (lit " " ++ numeral (-12) ++ lit "px")) = Some (-12)%Z.
Proof.
  assert (H1 : Forall (fun c => is_space c = true) (lit " "))
    by (repeat constructor).
  assert (H2 : noDigitAhead (lit "px")) by reflexivity.
  assert (H3 : (Z.abs (-12) <= 2 ^ 53)%Z) by (vm_compute; discriminate).
  split; [exact H1|]. split; [exact H2|]. split; [exact H3|].
  exact (X17_level_attribute_reads_its_numeral _ (-12)%Z _ H1 H2 H3).
Defined.

End MoreAttributes.

(* ================================================================== *)
(** * The double Enter of a note item *)
(* ================================================================== *)

Module NoteItemFacts.
Import NoteItem MoreSpec.

Lemma keydowns_cons note last key now tl :
  keydowns note last ((key, now) :: tl)
  = (fst (keydowns note (fst (fst (keydown note last key now))) tl),
     snd (fst (keydown note last key now))
     ++ snd (keydowns note (fst (fst (keydown note last key now))) tl)).
Proof.
  cbn [keydowns]. destruct (keydown note last key now) as [[l e] p].
  cbn [fst snd]. destruct (keydowns note l tl). reflexivity.
Qed.

(** An Enter that comes 500 ms or more after the remembered one only
    remembers its time. *)
Lemma keydown_single note last now :
  (500 <= now - last)%Z ->
  keydown note last KeyEnter now = (now, [], false).
Proof.
  intros H. cbn [keydown].
  destruct (Z.ltb_spec (now - last) 500); [lia|]. reflexivity.
Qed.

(** An Enter within 500 ms of the remembered one fires and forgets. *)
Lemma keydown_double note last now :
  (0 < now - last < 500)%Z ->
  keydown note last KeyEnter now
  = (0%Z,
     [CreateSibling (option_map noteId note) (option_map noteParent note)],
     true).
Proof.
  intros H. cbn [keydown].
  destruct (Z.ltb_spec (now - last) 500); [|lia].
  destruct (Z.gtb_spec (now - last) 0); [|lia]. reflexivity.
Qed.

Lemma half_step n : S (n / 2) = (S (S n)) / 2.
Proof.
  replace (S (S n)) with (n + 1 * 2) by lia.
  rewrite Nat.div_add by discriminate. lia.
Qed.

(** A burst of Enter presses, seen after a press that fired (nothing
    remembered) and after a press that did not (its time remembered). *)
Lemma burst note e : forall times prev,
  e = CreateSibling (option_map noteId note) (option_map noteParent note) ->
  (500 <= prev)%Z -> rapid prev times ->
  snd (keydowns note 0 (enters times)) = List.repeat e (length times / 2)
  /\ snd (keydowns note prev (enters times))
     = List.repeat e (S (length times) / 2).
Proof.
  induction times as [|t tl IH]; intros prev He Hprev Hr.
  - split; reflexivity.
  - cbn [rapid] in Hr. destruct Hr as [Ht Htl].
    destruct (IH t He ltac:(lia) Htl) as [IHa IHb].
    unfold enters in *. cbn [map length]. rewrite !keydowns_cons. split.
    + rewrite keydown_single by lia. cbn [fst snd app]. exact IHb.
    + rewrite keydown_double by lia. cbn [fst snd app].
      rewrite IHa, <- half_step, He. reflexivity.
Qed.

End NoteItemFacts.

Module MoreNoteItem.
Import NoteItem MoreSpec NoteItemFacts.

(** X18: starting from the handler's initial state, a burst of Enter
    presses, each less than 500 ms after the one before, fires one
    [create-sibling] event for every second press: the press that fires
    forgets the remembered time, so the third press of a burst starts a new
    pair.  Every event names the note and its parent. *)
Theorem X18_double_enter_fires_on_every_second_press :
  forall note t times,
    (500 <= t)%Z -> rapid t times ->
    snd (keydowns note 0 (enters (t :: times)))
    = List.repeat (CreateSibling (option_map noteId note)
                            (option_map noteParent note))
             (length (t :: times) / 2).
Proof.
  intros note t times Ht Hr.
  destruct (burst note _ times t eq_refl Ht Hr) as [_ Hb].
  unfold enters in *. cbn [map]. rewrite keydowns_cons.
  rewrite keydown_single by lia. cbn [fst snd app length]. exact Hb.
Qed.

Lemma X18_double_enter_fires_on_every_second_press_witness :
  let note := Some (NoteRec (lit "n1") (lit "p")) in
  (500 <= 1000)%Z /\ rapid 1000 [1100; 1200; 1300; 1400]%Z
  /\ snd (keydowns note 0 (enters [1000; 1100; 1200; 1300; 1400]%Z))
     = List.repeat (CreateSibling (option_map noteId note)
                             (option_map noteParent note)) 2.
Proof.
  intros note.
  assert (H1 : (500 <= 1000)%Z) by lia.
  assert (H2 : rapid 1000 [1100; 1200; 1300; 1400]%Z)
    by (cbn [rapid]; repeat split; lia).
  split; [exact H1|]. split; [exact H2|].
  exact (X18_double_enter_fires_on_every_second_press note 1000%Z _ H1 H2).
Defined.

(** X19: keys other than Enter do not touch the double-Enter detection:
    the remembered time and the [create-sibling] events of a sequence of
    key presses are those of its Enter presses alone, so two Enters within
    500 ms fire also with other keys typed in between. *)
Theorem X19_other_keys_do_not_break_a_double_enter :
  forall note presses last,
    fst (keydowns note last presses)
    = fst (keydowns note last (filter isEnter presses))
    /\ filter isSibling (snd (keydowns note last presses))
       = snd (keydowns note last (filter isEnter presses)).
Proof.
  intros note. induction presses as [|[key now] tl IH]; intros last.
  - split; reflexivity.
  - destruct key; cbn [filter isEnter fst]; rewrite keydowns_cons.
    + cbn [keydown fst snd app filter isSibling]. apply IH.
    + rewrite keydowns_cons. cbn [fst snd].
      destruct (IH (fst (fst (keydown note last KeyEnter now)))) as [H1 H2].
      split; [exact H1|]. rewrite filter_app, H2. f_equal.
      cbn [keydown].
      destruct ((now - last <? 500)%Z && (now - last >? 0)%Z); reflexivity.
    + cbn [keydown fst snd app]. apply IH.
Qed.

End MoreNoteItem.

(* ================================================================== *)
(** * The note tree *)
(* ================================================================== *)

Module NotesAppFacts.
Import NotesApp MoreSpec.

Lemma str_eqb_spec a : forall b, reflect (a = b) (str_eqb a b).
Proof.
  induction a as [|x a IH]; intros [|y b]; cbn [str_eqb];
    try (constructor; congruence).
  destruct (N.eqb_spec x y) as [->|Hne]; cbn [andb].
  - destruct (IH b) as [->|Hne]; constructor; congruence.
  - constructor. congruence.
Qed.

Lemma filter_none (A : Type) (f : A -> bool) l :
  Forall (fun a => f a = false) l -> filter f l = [].
Proof.
  induction 1 as [|a tl Ha Htl IH]; [reflexivity|].
  cbn [filter]. rewrite Ha. exact IH.
Qed.

Lemma mapGet_mapPush m : forall k note k',
  mapGet (mapPush m k note) k'
  = if str_eqb k k' then pushed (mapGet m k) [note] else mapGet m k'.
Proof.
  induction m as [|[k0 g] tl IH]; intros k note k'.
  - cbn [mapPush mapGet pushed]. destruct (str_eqb k k'); reflexivity.
  - cbn [mapPush mapGet].
    destruct (str_eqb_spec k0 k) as [->|Hne]; cbn [mapGet].
    + destruct (str_eqb_spec k k') as [->|Hne']; [reflexivity|].
      reflexivity.
    + rewrite IH.
      destruct (str_eqb_spec k0 k') as [->|Hne0].
      * destruct (str_eqb_spec k k'); [congruence|reflexivity].
      * reflexivity.
Qed.

Lemma pushed_cons o x l :
  pushed (pushed o [x]) l = pushed o (x :: l).
Proof.
  destruct o as [g|]; cbn [pushed].
  - rewrite <- app_assoc. reflexivity.
  - reflexivity.
Qed.

Lemma groupNotes_from notes : forall m k,
  mapGet (fold_left (fun m note => mapPush m (parentKey note) note) notes m) k
  = pushed (mapGet m k) (filter (filedUnder k) notes).
Proof.
  induction notes as [|x tl IH]; intros m k.
  - cbn [fold_left filter]. destruct (mapGet m k) as [g|]; cbn [pushed];
      [rewrite app_nil_r|]; reflexivity.
  - cbn [fold_left filter]. rewrite IH, mapGet_mapPush.
    change (filedUnder k x) with (str_eqb (parentKey x) k).
    destruct (str_eqb_spec (parentKey x) k) as [He|Hne]; [|reflexivity].
    subst k. apply pushed_cons.
Qed.

Lemma mapGet_sorted m : forall k,
  mapGet (map (fun e => (fst e, sortByOrder (snd e))) m) k
  = option_map sortByOrder (mapGet m k).
Proof.
  induction m as [|[k0 g] tl IH]; intros k; [reflexivity|].
  cbn [map mapGet fst snd]. destruct (str_eqb k0 k); [reflexivity | apply IH].
Qed.

(** *** The stable sort *)

Lemma insert_perm x l : Permutation (insertByOrder x l) (x :: l).
Proof.
  induction l as [|y tl IH]; [reflexivity|]. cbn [insertByOrder].
  destruct (order x - order y <? 0)%Z; [reflexivity|].
  rewrite IH. apply perm_swap.
Qed.

Lemma insert_sorted x l :
  StronglySorted byOrder l -> StronglySorted byOrder (insertByOrder x l).
Proof.
  induction 1 as [|y tl Htl IH Hy]; cbn [insertByOrder].
  - constructor; constructor.
  - destruct (Z.ltb_spec (order x - order y) 0) as [Hlt|Hge].
    + constructor; [constructor; assumption|].
      constructor; [unfold byOrder; lia|].
      eapply Forall_impl; [|exact Hy]. unfold byOrder. intros; lia.
    + constructor; [exact IH|].
      rewrite (insert_perm x tl). constructor; [unfold byOrder; lia|exact Hy].
Qed.

Lemma insert_stable o x l :
  StronglySorted byOrder l ->
  filter (hasOrder o) (insertByOrder x l)
  = filter (hasOrder o) l ++ filter (hasOrder o) [x].
Proof.
  induction 1 as [|y tl Htl IH Hy]; [cbn; rewrite ?app_nil_r; reflexivity|].
  cbn [insertByOrder].
  destruct (Z.ltb_spec (order x - order y) 0) as [Hlt|Hge].
  - change (x :: y :: tl) with ([x] ++ y :: tl). rewrite filter_app.
    assert (Hcase : filter (hasOrder o) [x] = []
                    \/ filter (hasOrder o) (y :: tl) = []).
    { destruct (Z.eqb_spec (order x) o) as [Hx|Hx].
      - right. apply filter_none. constructor.
        + unfold hasOrder.
          destruct (Z.eqb_spec (order y) o); [lia|reflexivity].
        + eapply Forall_impl; [|exact Hy]. unfold byOrder, hasOrder.
          intros a Ha.
          destruct (Z.eqb_spec (order a) o); [lia|reflexivity].
      - left. apply filter_none. constructor; [|constructor].
        unfold hasOrder.
        destruct (Z.eqb_spec (order x) o); [contradiction|reflexivity]. }
    destruct Hcase as [H0|H0]; rewrite H0, ?app_nil_r; reflexivity.
  - cbn [filter]. rewrite IH.
    destruct (hasOrder o y); reflexivity.
Qed.

Lemma sort_from l : forall acc,
  StronglySorted byOrder acc ->
  let s := fold_left (fun acc x => insertByOrder x acc) l acc in
  Permutation s (acc ++ l)
  /\ StronglySorted byOrder s
  /\ forall o, filter (hasOrder o) s
               = filter (hasOrder o) acc ++ filter (hasOrder o) l.
Proof.
  induction l as [|x tl IH]; intros acc Hacc; cbn [fold_left].
  - rewrite app_nil_r. split; [reflexivity|]. split; [exact Hacc|].
    intros o. cbn [filter]. rewrite app_nil_r. reflexivity.
  - destruct (IH _ (insert_sorted x _ Hacc)) as (Hp & Hs & Hf).
    split; [|split; [exact Hs|]].
    + cbv zeta in Hp. rewrite Hp, (insert_perm x acc).
      cbn [app]. apply Permutation_middle.
    + intros o. cbv zeta in Hf. rewrite Hf, (insert_stable o x _ Hacc).
      rewrite <- app_assoc. f_equal.
      change (x :: tl) with ([x] ++ tl). apply eq_sym, filter_app.
Qed.

End NotesAppFacts.

Module MoreNotesApp.
Import NotesApp MoreSpec NotesAppFacts.

(** X20: [buildNoteTree] files every note under its parent (or under
    [root] when it has none) and nowhere else: a key has an entry exactly
    when some note is filed under it, and the entry holds exactly those
    notes, sorted by [order], notes of equal order staying in the order of
    the input. *)
Theorem X20_note_tree_groups_and_sorts :
  forall notes k,
    let filed := filter (filedUnder k) notes in
    match mapGet (buildNoteTree notes) k with
    | None => filed = []
    | Some children =>
        filed <> []
        /\ Permutation children filed
        /\ StronglySorted byOrder children
        /\ forall o, filter (hasOrder o) children = filter (hasOrder o) filed
    end.
Proof.
  intros notes k filed. unfold buildNoteTree, groupNotes.
  rewrite mapGet_sorted, groupNotes_from. cbn [mapGet pushed]. fold filed.
  destruct filed as [|x tl] eqn:E; cbn [option_map]; [reflexivity|].
  split; [discriminate|].
  destruct (sort_from (x :: tl) [] (SSorted_nil _)) as (Hp & Hs & Hf).
  cbv zeta in Hp, Hf. cbn [app filter] in Hp, Hf.
  split; [exact Hp|]. split; [exact Hs|exact Hf].
Qed.

End MoreNotesApp.
